(** * Top workplaces by shift volume

    A shallow embedding of [src/scripts/top-workplaces.ts]
    (class [TopWorkplacesService]) and the properties of its
    count / join / rank pipeline.

    Layout of the development:
    - the JavaScript values that can flow through the pipeline, and the
      plain object [{}] that [countShifts] uses as a dictionary;
    - [Array.prototype.sort] as the engine carries it out, [slice],
      [map] and [reduce] on lists;
    - the three methods [countShifts], [getTopThreeWorkplaces] and
      [getTopWorkplaces];
    - a store-passing version of the same methods, where arrays live at
      heap locations and [sort] works in place;
    - the theorems. *)

From stdpp Require Import gmap strings list sorting.

Local Open Scope string_scope.

(** ** Records of the source *)

Module Workplace.
Record t := mk { id : string; name : string }.
End Workplace.

Module Shift.
Record t := mk { workplaceId : string; workerId : string }.
End Shift.

(** ** JavaScript values

    Only the values that the pipeline can produce are represented.
    - [VNum n] is a number holding the integer [n]. Counts grow by one per
      array element and a JavaScript array has fewer than 2^32 elements, so
      every number met here is an integer that a double holds exactly.
    - [VBuiltin k] is the value found under the name [k] on
      [Object.prototype]: a built-in function, or, for [__proto__], the
      prototype object itself.
    - [VText k n] is the string made of the text of [VBuiltin k]
      (for instance [function toString() { [native code] }], or
      [[object Object]] for [__proto__]) followed by [n] characters [1].
      It is what [+ 1] yields on such a value: string concatenation. *)

Inductive jsval :=
  | VUndefined
  | VNaN
  | VNum (n : Z)
  | VBuiltin (k : string)
  | VText (k : string) (ones : nat).

#[global] Instance jsval_eq_dec : EqDecision jsval.
Proof. solve_decision. Defined.

Module TopWorkPlaces.
Record t := mk { name : string; shifts : jsval }.
End TopWorkPlaces.

#[global] Instance Workplace_eq_dec : EqDecision Workplace.t.
Proof. solve_decision. Defined.
#[global] Instance Shift_eq_dec : EqDecision Shift.t.
Proof. solve_decision. Defined.
#[global] Instance TopWorkPlaces_eq_dec : EqDecision TopWorkPlaces.t.
Proof. solve_decision. Defined.

(** [ToBoolean]: [undefined], [NaN] and [0] are falsy; objects, functions
    and non-empty strings are truthy. *)
Definition ToBoolean (v : jsval) : bool :=
  match v with
  | VUndefined | VNaN => false
  | VNum n => negb (n =? 0)%Z
  | VBuiltin _ | VText _ _ => true
  end.

(** [a || b] *)
Definition js_or (a b : jsval) : jsval := if ToBoolean a then a else b.

(** [ToNumber]; [None] stands for [NaN]. The text of a built-in starts
    with [function] or [[object], so neither it nor its extension by digits
    is a numeric literal. *)
Definition ToNumber (v : jsval) : option Z :=
  match v with
  | VNum n => Some n
  | VUndefined | VNaN | VBuiltin _ | VText _ _ => None
  end.

(** [v + 1]: numeric addition on numbers, string concatenation as soon as
    the left operand is an object or a string. *)
Definition js_add_one (v : jsval) : jsval :=
  match v with
  | VNum n => VNum (n + 1)
  | VUndefined | VNaN => VNaN
  | VBuiltin k => VText k 1
  | VText k n => VText k (S n)
  end.

(** [b - a] *)
Definition js_sub (b a : jsval) : option Z :=
  match ToNumber b, ToNumber a with
  | Some y, Some x => Some (y - x)%Z
  | _, _ => None
  end.

(** ** The object literal [{}] used as a dictionary

    [{}] has no own property but inherits from [Object.prototype]. The
    own properties are a finite map; the inherited names are the twelve
    properties of [Object.prototype]. *)

Definition Object_prototype_names : list string :=
  [ "constructor"; "__defineGetter__"; "__defineSetter__"; "hasOwnProperty";
    "__lookupGetter__"; "__lookupSetter__"; "isPrototypeOf";
    "propertyIsEnumerable"; "toString"; "valueOf"; "__proto__";
    "toLocaleString" ].

Definition inherited (k : string) : bool :=
  bool_decide (k ∈ Object_prototype_names).

(** [o[k]]: an own property wins, then the prototype, then [undefined].
    [__proto__] is an accessor on the prototype whose getter returns the
    prototype object. *)
Definition get_prop (o : gmap string jsval) (k : string) : jsval :=
  if decide (k = "__proto__") then VBuiltin k
  else match o !! k with
       | Some v => v
       | None => if inherited k then VBuiltin k else VUndefined
       end.

(** [o[k] = v] for a primitive [v] (all that [+] can produce): it creates
    or overwrites an own property, except under [__proto__], whose setter
    ignores every value that is neither an object nor [null]. *)
Definition set_prop (o : gmap string jsval) (k : string) (v : jsval)
  : gmap string jsval :=
  if decide (k = "__proto__") then o else <[k := v]> o.

(** ** Array methods *)

Section array_methods.
Context {A : Type}.

(** [SortCompare] of ECMAScript: the comparator's result through
    [ToNumber], with [NaN] read as [+0]. *)
Definition SortCompare (comparefn : A → A → option Z) (x y : A) : Z :=
  default 0%Z (comparefn x y).

(** [Array.prototype.sort]. ECMAScript fixes its result only when the
    comparator is a consistent comparison function on the elements: the
    stable sorted rearrangement. Otherwise the order is left to the
    engine, so the model follows the engine that runs the service, V8,
    whose sort handles an array of fewer than 64 elements as below:
    it takes the longest run that starts the array (reversed in place when
    it descends strictly) and then puts the remaining elements one by one
    into the sorted front, at the place found by a binary search.
    Longer arrays are cut into such runs, which are then merged; whenever
    the comparator is consistent this gives the list computed here
    (see [array_sort_determined]), and when it is not, the model speaks of
    arrays of fewer than 64 elements. *)

(** [order < 0], for [order = SortCompare(x, y)]. *)
Definition sorts_before (comparefn : A → A → option Z) (x y : A) : bool :=
  bool_decide (SortCompare comparefn x y < 0)%Z.

(** The loop of [CountAndMakeRun]: the run goes on with [current] while
    it compares with the previous element as the first pair did. *)
Fixpoint run_extend (comparefn : A → A → option Z) (descending : bool)
    (previous : A) (l : list A) : list A * list A :=
  match l with
  | [] => ([], [])
  | current :: l' =>
      if Bool.eqb (sorts_before comparefn current previous) descending
      then let '(run, rest) := run_extend comparefn descending current l' in
           (current :: run, rest)
      else ([], l)
  end.

(** [CountAndMakeRun]: the initial run, made ascending, and what follows
    it. *)
Definition CountAndMakeRun (comparefn : A → A → option Z) (l : list A)
  : list A * list A :=
  match l with
  | a0 :: a1 :: l' =>
      let descending := sorts_before comparefn a1 a0 in
      let '(run, rest) := run_extend comparefn descending a1 l' in
      (if descending then reverse (a0 :: a1 :: run) else a0 :: a1 :: run,
       rest)
  | _ => (l, [])
  end.

(** The binary search of [BinaryInsertionSort]:
    [while (left < right) { mid = left + ((right - left) >> 1); ... }].
    [fuel] bounds the number of turns; [right - left] turns are enough. *)
Fixpoint BinarySearch (fuel : nat) (comparefn : A → A → option Z) (pivot : A)
    (work : list A) (left right : nat) : nat :=
  match fuel with
  | 0 => left
  | S fuel' =>
      if bool_decide (left < right)%nat then
        let mid := (left + (right - left) / 2)%nat in
        match work !! mid with
        | Some x =>
            if sorts_before comparefn pivot x
            then BinarySearch fuel' comparefn pivot work left mid
            else BinarySearch fuel' comparefn pivot work (mid + 1)%nat right
        | None => left
        end
      else left
  end.

(** Moving the elements from [pos] on one place to the right and writing
    [x] at [pos]. *)
Definition insert_at (pos : nat) (x : A) (l : list A) : list A :=
  (take pos l ++ x :: drop pos l)%list.

(** [BinaryInsertionSort]: [sorted] is the front of the array already in
    order, [rest] the elements still to place. *)
Fixpoint BinaryInsertionSort (comparefn : A → A → option Z)
    (sorted rest : list A) : list A :=
  match rest with
  | [] => sorted
  | pivot :: rest' =>
      let left :=
        BinarySearch (length sorted) comparefn pivot sorted 0 (length sorted) in
      BinaryInsertionSort comparefn (insert_at left pivot sorted) rest'
  end.

Definition array_sort (comparefn : A → A → option Z) (l : list A) : list A :=
  let '(run, rest) := CountAndMakeRun comparefn l in
  BinaryInsertionSort comparefn run rest.

(** [slice(0, n)] *)
Definition slice0 (n : nat) (l : list A) : list A := take n l.
End array_methods.

(** ** The methods of [TopWorkplacesService] *)

(** The callback of [reduce] in [countShifts]. *)
Definition countStep (acc : gmap string jsval) (s : Shift.t)
  : gmap string jsval :=
  let workplaceId := Shift.workplaceId s in
  set_prop acc workplaceId
    (js_add_one (js_or (get_prop acc workplaceId) (VNum 0))).

Definition countShifts (shifts : list Shift.t) : gmap string jsval :=
  fold_left countStep shifts ∅.

(** The callback of [map] in [getTopThreeWorkplaces]. *)
Definition toRanked (shiftCounts : gmap string jsval) (w : Workplace.t)
  : TopWorkPlaces.t :=
  TopWorkPlaces.mk (Workplace.name w)
    (js_or (get_prop shiftCounts (Workplace.id w)) (VNum 0)).

(** The comparator [(a, b) => b.shifts - a.shifts]. *)
Definition byShiftsDesc (a b : TopWorkPlaces.t) : option Z :=
  js_sub (TopWorkPlaces.shifts b) (TopWorkPlaces.shifts a).

(** The joined sequence, before [sort] and [slice]. *)
Definition joined (workplaces : list Workplace.t)
    (shiftCounts : gmap string jsval) : list TopWorkPlaces.t :=
  toRanked shiftCounts <$> workplaces.

Definition getTopThreeWorkplaces (workplaces : list Workplace.t)
    (shiftCounts : gmap string jsval) : list TopWorkPlaces.t :=
  slice0 3 (array_sort byShiftsDesc (joined workplaces shiftCounts)).

(** ** Retrieval and the public operation *)

Inductive error :=
  | NetworkError
  | BadStatus (code : nat)
  | TypeError.

(** The state in which a promise settles. *)
Inductive outcome (A : Type) :=
  | Fulfilled (a : A)
  | Rejected (e : error).
Arguments Fulfilled {A} a.
Arguments Rejected {A} e.

#[global] Instance outcome_ret : MRet outcome := λ A a, Fulfilled a.
#[global] Instance outcome_bind : MBind outcome := λ A B f m,
  match m with
  | Fulfilled a => f a
  | Rejected e => Rejected e
  end.

(** The run-time value that [response.data.data] evaluates to. [fetchData]
    is declared to return a [T[]], but nothing checks it. [Array l] is
    the payload that the declarations promise: an array whose elements are
    records with string fields. An array that holds [null] is kept apart:
    the callbacks of [reduce] and [map] destructure their argument, which
    is a [TypeError] on [null]. Elements of other shapes (a record without
    the fields, fields that are no strings) are not represented. *)
Inductive fetched (T : Type) :=
  | Undefined            (* the envelope field [data] is missing *)
  | NotAnArray           (* any other value without array methods *)
  | Array (l : list T)   (* an array of records of the declared shape *)
  | ArrayWithNull.       (* an array that holds [null] somewhere *)
Arguments Undefined {T}.
Arguments NotAnArray {T}.
Arguments Array {T} l.
Arguments ArrayWithNull {T}.

(** [response.data], the body as the HTTP client decoded it. A body that
    could not be parsed stays a string, which has no [data] property:
    it is [Body Undefined]. *)
Inductive body (T : Type) :=
  | NoBody                       (* [undefined] or [null] *)
  | Body (data : fetched T).
Arguments NoBody {T}.
Arguments Body {T} data.

(** What [lastValueFrom(this.httpService.get(url))] settles to: the
    client rejects on a transport error and on a non-success status. *)
Inductive http_result (T : Type) :=
  | HttpError (e : error)
  | HttpResponse (data : body T).
Arguments HttpError {T} e.
Arguments HttpResponse {T} data.

Definition fetchData {T} (r : http_result T) : outcome (fetched T) :=
  match r with
  | HttpError e => Rejected e
  | HttpResponse NoBody => Rejected TypeError
  | HttpResponse (Body d) => Fulfilled d
  end.

(** [Promise.all] on two promises: fulfilled when both are, rejected as
    soon as one is. When both reject, [Promise.all] keeps the reason of
    the promise that is rejected first in time, which the settled results
    do not tell; the reason kept here is that of the first promise of the
    array. Only the error written to the console depends on this choice,
    and every statement below leaves that error open. *)
Definition Promise_all {A B} (a : outcome A) (b : outcome B)
  : outcome (A * B) :=
  match a, b with
  | Fulfilled x, Fulfilled y => Fulfilled (x, y)
  | Rejected e, _ => Rejected e
  | _, Rejected e => Rejected e
  end.

(** [this.countShifts(shifts)] on a run-time value: [shifts.reduce] is a
    [TypeError] unless [shifts] is an array, and so is the destructuring
    of a [null] element in the callback. *)
Definition call_countShifts (shifts : fetched Shift.t)
  : outcome (gmap string jsval) :=
  match shifts with
  | Array l => Fulfilled (countShifts l)
  | Undefined | NotAnArray | ArrayWithNull => Rejected TypeError
  end.

(** [this.getTopThreeWorkplaces(workplaces, shiftCounts)], likewise for
    [workplaces.map]. *)
Definition call_getTopThreeWorkplaces (workplaces : fetched Workplace.t)
    (shiftCounts : gmap string jsval) : outcome (list TopWorkPlaces.t) :=
  match workplaces with
  | Array l => Fulfilled (getTopThreeWorkplaces l shiftCounts)
  | Undefined | NotAnArray | ArrayWithNull => Rejected TypeError
  end.

(** The body of the [try] block. *)
Definition getTopWorkplaces_try (workplaces_resp : http_result Workplace.t)
    (shifts_resp : http_result Shift.t) : outcome (list TopWorkPlaces.t) :=
  '(workplaces, shifts) ←
     Promise_all (fetchData workplaces_resp) (fetchData shifts_resp);
  shiftCounts ← call_countShifts shifts;
  call_getTopThreeWorkplaces workplaces shiftCounts.

(** [getTopWorkplaces]: the state the returned promise settles in, and the
    errors written with [console.error]. *)
Definition getTopWorkplaces (workplaces_resp : http_result Workplace.t)
    (shifts_resp : http_result Shift.t)
  : outcome (list TopWorkPlaces.t) * list error :=
  match getTopWorkplaces_try workplaces_resp shifts_resp with
  | Fulfilled r => (Fulfilled r, [])
  | Rejected e => (Fulfilled [], [e])
  end.


(** What the process writes to the console. *)
Inductive console_line :=
  | ConsoleError (e : error)
  | ConsoleLog (v : list TopWorkPlaces.t).

(** [run]: awaits [getTopWorkplaces] and prints what it gets with
    [console.log]. The promise of [run] is rejected when the awaited one
    is, since [run] has no handler of its own. *)
Definition run (workplaces_resp : http_result Workplace.t)
    (shifts_resp : http_result Shift.t) : outcome unit * list console_line :=
  let '(settled, errors) := getTopWorkplaces workplaces_resp shifts_resp in
  match settled with
  | Fulfilled topWorkplaces =>
      (Fulfilled (),
       ((ConsoleError <$> errors) ++ [ConsoleLog topWorkplaces])%list)
  | Rejected e => (Rejected e, ConsoleError <$> errors)
  end.

(** ** The same methods over a store

    Arrays and objects are heap cells reached through references, as in
    JavaScript: [map] and [slice] allocate a new array, [sort] rearranges
    the array it is called on and returns the same reference, and the
    callback of [reduce] writes to the accumulator object. The records
    held by the arrays are only read by the callbacks, so they stay
    values. [None] is a [TypeError]: a reference that does not hold the
    kind of cell the method needs. *)

Inductive cell :=
  | CWorkplaces (l : list Workplace.t)
  | CShifts (l : list Shift.t)
  | CRanked (l : list TopWorkPlaces.t)
  | CObject (own : gmap string jsval).

Abbreviation heap := (gmap positive cell).

Definition alloc (h : heap) (c : cell) : positive * heap :=
  let r := fresh (dom h) in (r, <[r := c]> h).

(** One call of the [reduce] callback: it updates [acc] and returns it. *)
Definition countStep_st (h : heap) (acc : positive) (s : Shift.t)
  : option (positive * heap) :=
  match h !! acc with
  | Some (CObject o) => Some (acc, <[acc := CObject (countStep o s)]> h)
  | _ => None
  end.

Fixpoint reduce_st (h : heap) (acc : positive) (l : list Shift.t)
  : option (positive * heap) :=
  match l with
  | [] => Some (acc, h)
  | s :: l' =>
      match countStep_st h acc s with
      | Some (acc', h') => reduce_st h' acc' l'
      | None => None
      end
  end.

Definition countShifts_st (h : heap) (shifts : positive)
  : option (positive * heap) :=
  match h !! shifts with
  | Some (CShifts l) =>
      let '(acc, h0) := alloc h (CObject ∅) in reduce_st h0 acc l
  | _ => None
  end.

(** [workplaces.map(({ id, name }) => ...)] *)
Definition map_st (h : heap) (workplaces shiftCounts : positive)
  : option (positive * heap) :=
  match h !! workplaces, h !! shiftCounts with
  | Some (CWorkplaces l), Some (CObject o) =>
      Some (alloc h (CRanked (toRanked o <$> l)))
  | _, _ => None
  end.

(** [a.sort((a, b) => b.shifts - a.shifts)]: in place. *)
Definition sort_st (h : heap) (a : positive) : option (positive * heap) :=
  match h !! a with
  | Some (CRanked l) => Some (a, <[a := CRanked (array_sort byShiftsDesc l)]> h)
  | _ => None
  end.

(** [a.slice(0, 3)] *)
Definition slice_st (h : heap) (a : positive) : option (positive * heap) :=
  match h !! a with
  | Some (CRanked l) => Some (alloc h (CRanked (slice0 3 l)))
  | _ => None
  end.

Definition getTopThreeWorkplaces_st (h : heap)
    (workplaces shiftCounts : positive) : option (positive * heap) :=
  '(a, h1) ← map_st h workplaces shiftCounts;
  '(a', h2) ← sort_st h1 a;
  slice_st h2 a'.

(** The synchronous part of [getTopWorkplaces], once both arrays are
    there. *)
Definition aggregate_st (h : heap) (workplaces shifts : positive)
  : option (positive * heap) :=
  '(shiftCounts, h1) ← countShifts_st h shifts;
  getTopThreeWorkplaces_st h1 workplaces shiftCounts.

(** ** Vocabulary of the properties *)

(** The shift records that reference the workplace identifier [k]. *)
Definition referencing (k : string) (shifts : list Shift.t) : list Shift.t :=
  filter (λ s, Shift.workplaceId s = k) shifts.

(** What one visit of the [reduce] callback does to the value under the
    visited key. *)
Definition bump (v : jsval) : jsval := js_add_one (js_or v (VNum 0)).

(** The value read under [k] from the count map of a collection in which
    [n] records reference [k]. *)
Definition tally (k : string) (n : nat) : jsval :=
  if decide (k = "__proto__") then VBuiltin k
  else if inherited k then
    match n with 0 => VBuiltin k | S _ => VText k n end
  else
    match n with 0 => VUndefined | S _ => VNum (Z.of_nat n) end.

(** A shift record is known when some workplace carries its
    [workplaceId]; the others are the orphans. *)
Definition known (workplaces : list Workplace.t) (s : Shift.t) : Prop :=
  Shift.workplaceId s ∈ Workplace.id <$> workplaces.

#[global] Instance known_dec workplaces s : Decision (known workplaces s).
Proof. unfold known. apply _. Defined.

(** [a] may stand before [b] in a ranking by count, descending: both
    [shifts] fields are numbers and that of [a] is at least that of [b]. *)
Definition shifts_ge (a b : TopWorkPlaces.t) : Prop :=
  match TopWorkPlaces.shifts a, TopWorkPlaces.shifts b with
  | VNum x, VNum y => (y ≤ x)%Z
  | _, _ => False
  end.

#[global] Instance shifts_ge_dec a b : Decision (shifts_ge a b).
Proof.
  unfold shifts_ge.
  destruct (TopWorkPlaces.shifts a), (TopWorkPlaces.shifts b); apply _.
Defined.

(** A retrieval that does not deliver a collection: the request fails, the
    response has no body, or the body lacks the envelope field. *)
Definition retrieval_fails {T} (r : http_result T) : bool :=
  match r with
  | HttpError _ => true
  | HttpResponse NoBody => true
  | HttpResponse (Body Undefined) => true
  | HttpResponse (Body _) => false
  end.

(** What ECMAScript asks of [sort]: with [SortCompare] as the order,
    [a] and [b] compare equal, and [a] may stand before [b]. *)
Definition sort_tie {A} (comparefn : A → A → option Z) (a b : A) : Prop :=
  SortCompare comparefn a b = 0%Z.
Definition sort_le {A} (comparefn : A → A → option Z) (a b : A) : Prop :=
  (SortCompare comparefn a b ≤ 0)%Z.

#[global] Instance sort_tie_dec {A} (comparefn : A → A → option Z) a b :
  Decision (sort_tie comparefn a b).
Proof. unfold sort_tie. apply _. Defined.

(** [l'] is a stable sorted rearrangement of [l]: the same elements, in
    the comparator's order, those that compare equal in their order in
    [l]. *)
Definition stable_sort_of {A} (comparefn : A → A → option Z)
    (l l' : list A) : Prop :=
  l' ≡ₚ l
  ∧ StronglySorted (sort_le comparefn) l'
  ∧ ∀ z, z ∈ l →
      filter (sort_tie comparefn z) l' = filter (sort_tie comparefn z) l.

(** The collection of records that a retrieval hands to the aggregation,
    if it is one. *)
Definition delivers_array {T} (r : http_result T) : option (list T) :=
  match r with
  | HttpResponse (Body (Array l)) => Some l
  | _ => None
  end.

(** A consistent comparison function on the elements that satisfy [P], as
    ECMAScript asks of the comparator for the result of [sort] to be
    determined: comparing equal is an equivalence, the order is transitive
    and the two directions of a comparison agree. *)
Record consistent_on {A} (comparefn : A → A → option Z) (P : A → Prop)
    : Prop := {
  cons_tie_refl : ∀ a, P a → sort_tie comparefn a a;
  cons_tie_sym : ∀ a b, P a → P b →
    sort_tie comparefn a b → sort_tie comparefn b a;
  cons_tie_trans : ∀ a b c, P a → P b → P c →
    sort_tie comparefn a b → sort_tie comparefn b c → sort_tie comparefn a c;
  cons_le_trans : ∀ a b c, P a → P b → P c →
    sort_le comparefn a b → sort_le comparefn b c → sort_le comparefn a c;
  cons_le_antisym : ∀ a b, P a → P b →
    sort_le comparefn a b → sort_le comparefn b a → sort_tie comparefn a b;
  cons_gt_flip : ∀ a b, P a → P b →
    (0 < SortCompare comparefn a b)%Z → sort_le comparefn b a;
  cons_lt_le_trans : ∀ a b c, P a → P b → P c →
    (SortCompare comparefn a b < 0)%Z → sort_le comparefn b c →
    (SortCompare comparefn a c < 0)%Z
}.

(** * Examples *)

(** Scenario 1 of the specification. *)
Example scenario_1 :
  getTopThreeWorkplaces
    [Workplace.mk "A" "Alpha"; Workplace.mk "B" "Beta";
     Workplace.mk "C" "Gamma"; Workplace.mk "D" "Delta"]
    (countShifts
       [Shift.mk "A" "w1"; Shift.mk "A" "w2"; Shift.mk "A" "w3";
        Shift.mk "B" "w1"; Shift.mk "B" "w2"; Shift.mk "C" "w1"])
  = [TopWorkPlaces.mk "Alpha" (VNum 3); TopWorkPlaces.mk "Beta" (VNum 2);
     TopWorkPlaces.mk "Gamma" (VNum 1)].
Proof. vm_compute. reflexivity. Qed.

(** Scenario 2: a workplace without shifts is reported with 0. *)
Example scenario_2 :
  getTopThreeWorkplaces [Workplace.mk "A" "Alpha"] (countShifts [])
  = [TopWorkPlaces.mk "Alpha" (VNum 0)].
Proof. vm_compute. reflexivity. Qed.

(** Scenario 3: no workplace, one orphan shift. *)
Example scenario_3 :
  getTopThreeWorkplaces [] (countShifts [Shift.mk "X" "w1"]) = [].
Proof. reflexivity. Qed.

(** Scenario 4: a tie keeps the order of the workplace collection. *)
Example scenario_4 :
  getTopThreeWorkplaces
    [Workplace.mk "A" "Alpha"; Workplace.mk "B" "Beta"]
    (countShifts [Shift.mk "A" "w1"; Shift.mk "B" "w1"])
  = [TopWorkPlaces.mk "Alpha" (VNum 1); TopWorkPlaces.mk "Beta" (VNum 1)].
Proof. vm_compute. reflexivity. Qed.

(** Scenario 5: the retrieval of shifts fails. *)
Example scenario_5 :
  getTopWorkplaces (HttpResponse (Body (Array [Workplace.mk "A" "Alpha"])))
                   (HttpError NetworkError)
  = (Fulfilled [], [NetworkError]).
Proof. reflexivity. Qed.

(** The sort when the comparator answers [NaN]: the array starts with a
    descending run of two, which is reversed; the entry of [valueOf] stays
    where it is, and the last entry is moved to the second place. *)
Example sort_with_inherited_id :
  getTopThreeWorkplaces
    [Workplace.mk "A" "Alpha"; Workplace.mk "B" "Beta";
     Workplace.mk "valueOf" "Annex"; Workplace.mk "C" "Gamma"]
    (countShifts [Shift.mk "B" "w1"; Shift.mk "C" "w1"])
  = [TopWorkPlaces.mk "Beta" (VNum 1); TopWorkPlaces.mk "Gamma" (VNum 1);
     TopWorkPlaces.mk "Alpha" (VNum 0)].
Proof. vm_compute. reflexivity. Qed.

(** * The count map *)

Lemma get_set_prop o k v k' :
  get_prop (set_prop o k v) k' =
    if decide (k' = "__proto__") then VBuiltin k'
    else if decide (k = k') then v else get_prop o k'.
Proof.
  unfold get_prop, set_prop.
  destruct (decide (k' = "__proto__")) as [->|Hk']; [done|].
  destruct (decide (k = "__proto__")) as [->|Hk].
  - by rewrite decide_False by done.
  - destruct (decide (k = k')) as [->|Hne].
    + by rewrite lookup_insert_eq.
    + by rewrite lookup_insert_ne.
Qed.

Lemma get_countStep acc s k :
  get_prop (countStep acc s) k =
    if decide (k = "__proto__") then VBuiltin k
    else if decide (Shift.workplaceId s = k) then bump (get_prop acc k)
    else get_prop acc k.
Proof.
  unfold countStep. rewrite get_set_prop.
  repeat case_decide; subst; done.
Qed.

Lemma get_fold_countStep shifts acc k :
  k ≠ "__proto__" →
  get_prop (fold_left countStep shifts acc) k =
    Nat.iter (length (referencing k shifts)) bump (get_prop acc k).
Proof.
  intros Hk. revert acc.
  induction shifts as [|s shifts IH]; intros acc; [done|].
  cbn [fold_left]. rewrite IH, get_countStep, decide_False by done.
  unfold referencing. rewrite filter_cons.
  destruct (decide (Shift.workplaceId s = k)) as [Heq|Hne]; [|done].
  cbn [length]. by rewrite Nat.iter_succ_r.
Qed.

Lemma iter_bump_ordinary n :
  Nat.iter n bump VUndefined =
    match n with 0 => VUndefined | S _ => VNum (Z.of_nat n) end.
Proof.
  induction n as [|n IH]; [done|].
  rewrite Nat.iter_succ, IH. destruct n as [|n]; [done|].
  unfold bump, js_or. cbn [ToBoolean js_add_one].
  replace (Z.of_nat (S n) =? 0)%Z with false by (symmetry; apply Z.eqb_neq; lia).
  cbn [negb js_add_one]. f_equal. lia.
Qed.

Lemma iter_bump_builtin k n :
  Nat.iter n bump (VBuiltin k) =
    match n with 0 => VBuiltin k | S _ => VText k n end.
Proof.
  induction n as [|n IH]; [done|].
  rewrite Nat.iter_succ, IH. by destruct n.
Qed.

(** Reading the count map: the closed form of [countShifts] under one
    key. *)
Lemma get_countShifts shifts k :
  get_prop (countShifts shifts) k = tally k (length (referencing k shifts)).
Proof.
  unfold tally, countShifts.
  destruct (decide (k = "__proto__")) as [Hk|Hk].
  - unfold get_prop. by rewrite decide_True.
  - rewrite get_fold_countStep by done.
    unfold get_prop at 1. rewrite decide_False, lookup_empty by done.
    destruct (inherited k).
    + apply iter_bump_builtin.
    + apply iter_bump_ordinary.
Qed.

(** The [shifts] field that [toRanked] reports for a workplace. *)
Lemma shifts_toRanked shifts w :
  TopWorkPlaces.shifts (toRanked (countShifts shifts) w) =
    js_or (tally (Workplace.id w)
                 (length (referencing (Workplace.id w) shifts))) (VNum 0).
Proof. unfold toRanked. cbn. by rewrite get_countShifts. Qed.

Lemma inherited_proto : inherited "__proto__" = true.
Proof. done. Qed.

Lemma tally_ordinary k n :
  inherited k = false → js_or (tally k n) (VNum 0) = VNum (Z.of_nat n).
Proof.
  intros Hk. unfold tally.
  destruct (decide (k = "__proto__")) as [->|_]; [done|].
  rewrite Hk. destruct n as [|n]; [done|].
  unfold js_or. cbn [ToBoolean].
  by replace (Z.of_nat (S n) =? 0)%Z with false by (symmetry; apply Z.eqb_neq; lia).
Qed.

Lemma tally_inherited k n :
  inherited k = true → ToNumber (js_or (tally k n) (VNum 0)) = None.
Proof.
  intros Hk. unfold tally.
  destruct (decide (k = "__proto__")) as [->|_]; [done|].
  rewrite Hk. by destruct n.
Qed.

(** * The sort *)

Section array_sort_facts.
Context {A : Type} (comparefn : A → A → option Z).

Lemma sorts_before_true x y :
  sorts_before comparefn x y = true ↔ (SortCompare comparefn x y < 0)%Z.
Proof. unfold sorts_before. apply bool_decide_eq_true. Qed.

Lemma sorts_before_false x y :
  sorts_before comparefn x y = false ↔ (0 ≤ SortCompare comparefn x y)%Z.
Proof. unfold sorts_before. rewrite bool_decide_eq_false. lia. Qed.

(** ** The binary search never runs out of turns

    The interval [left, right) shrinks at every turn, so a [fuel] of
    [right - left] is never used up: more fuel changes nothing. *)

Lemma BinarySearch_fuel fuel fuel' pivot work left right :
  (right - left ≤ fuel)%nat → (right - left ≤ fuel')%nat →
  BinarySearch fuel comparefn pivot work left right
  = BinarySearch fuel' comparefn pivot work left right.
Proof.
  revert fuel' left right.
  induction fuel as [|fuel IH]; intros [|fuel'] left right Hf Hf';
    cbn [BinarySearch]; try done.
  - by rewrite bool_decide_eq_false_2 by lia.
  - by rewrite bool_decide_eq_false_2 by lia.
  - case_bool_decide as Hlt; [|done].
    assert ((right - left) / 2 < right - left)%nat as Hhalf
      by (apply Nat.div_lt; lia).
    destruct (work !! _); [|done].
    destruct (sorts_before comparefn pivot a); apply IH; lia.
Qed.

(** ** The sort rearranges *)

Lemma run_extend_app descending previous l :
  ((run_extend comparefn descending previous l).1
     ++ (run_extend comparefn descending previous l).2)%list = l.
Proof.
  revert previous. induction l as [|current l IH]; intros previous; [done|].
  cbn [run_extend]. destruct (Bool.eqb _ _); [|done].
  specialize (IH current).
  destruct (run_extend comparefn descending current l) as [run rest].
  cbn in *. by rewrite IH.
Qed.

Lemma CountAndMakeRun_perm l :
  ((CountAndMakeRun comparefn l).1 ++ (CountAndMakeRun comparefn l).2)%list
  ≡ₚ l.
Proof.
  destruct l as [|a0 [|a1 l]]; [done|by rewrite app_nil_r|].
  cbn [CountAndMakeRun].
  pose proof (run_extend_app (sorts_before comparefn a1 a0) a1 l) as Happ.
  destruct (run_extend comparefn (sorts_before comparefn a1 a0) a1 l)
    as [run rest].
  cbn [fst snd] in *. rewrite <-Happ.
  destruct (sorts_before comparefn a1 a0); [|done].
  by rewrite reverse_Permutation.
Qed.

Lemma insert_at_perm pos x (l : list A) : insert_at pos x l ≡ₚ x :: l.
Proof.
  unfold insert_at. rewrite <-Permutation_middle. by rewrite take_drop.
Qed.

Lemma BinaryInsertionSort_perm sorted rest :
  BinaryInsertionSort comparefn sorted rest ≡ₚ (sorted ++ rest)%list.
Proof.
  revert sorted. induction rest as [|pivot rest IH]; intros sorted.
  { by rewrite app_nil_r. }
  cbn [BinaryInsertionSort]. rewrite IH, insert_at_perm.
  by rewrite <-Permutation_middle.
Qed.

Lemma array_sort_perm l : array_sort comparefn l ≡ₚ l.
Proof.
  unfold array_sort. pose proof (CountAndMakeRun_perm l) as Hrun.
  destruct (CountAndMakeRun comparefn l) as [run rest]. cbn in Hrun.
  by rewrite BinaryInsertionSort_perm.
Qed.

Lemma length_array_sort l : length (array_sort comparefn l) = length l.
Proof. by rewrite array_sort_perm. Qed.

(** ** An array without a descent is left as it is *)

Lemma run_extend_no_descent previous l :
  StronglySorted (λ a b, sorts_before comparefn b a = false) (previous :: l) →
  run_extend comparefn false previous l = (l, []).
Proof.
  revert previous. induction l as [|current l IH]; intros previous Hl; [done|].
  apply StronglySorted_cons in Hl as [Hprev Hl].
  apply Forall_cons in Hprev as [Hpc _].
  cbn [run_extend]. rewrite Hpc. cbn [Bool.eqb]. by rewrite IH.
Qed.

Lemma array_sort_no_descent l :
  StronglySorted (λ a b, sorts_before comparefn b a = false) l →
  array_sort comparefn l = l.
Proof.
  intros Hl. unfold array_sort.
  destruct l as [|a0 [|a1 l]]; [done..|].
  cbn [CountAndMakeRun].
  pose proof Hl as Hl'. apply StronglySorted_cons in Hl' as [H0 Hl'].
  apply Forall_cons in H0 as [H01 _]. rewrite H01.
  by rewrite run_extend_no_descent.
Qed.

End array_sort_facts.

Lemma StronglySorted_lookup {A} (R : relation A) l p q a b :
  StronglySorted R l → p < q → l !! p = Some a → l !! q = Some b → R a b.
Proof.
  intros Hl. revert p q. induction Hl as [|x l Hl IH Hx]; intros p q Hpq Ha Hb.
  { by rewrite lookup_nil in Ha. }
  destruct q as [|q]; [lia|]. destruct p as [|p]; simplify_eq/=.
  - rewrite Forall_forall in Hx. apply Hx. by eapply list_elem_of_lookup_2.
  - apply (IH p q); [lia|done..].
Qed.

Lemma StronglySorted_weaken {A} (R R' : relation A) l :
  (∀ a b, R a b → R' a b) → StronglySorted R l → StronglySorted R' l.
Proof.
  intros HR. induction 1 as [|x l Hl IH Hx]; constructor; [done|].
  eapply Forall_impl; [exact Hx|]. auto.
Qed.

Lemma StronglySorted_weaken_on {A} (P : A → Prop) (R R' : relation A) l :
  (∀ a b, P a → P b → R a b → R' a b) → Forall P l →
  StronglySorted R l → StronglySorted R' l.
Proof.
  intros HR HP. induction 1 as [|x l Hl IH Hx]; [constructor|].
  apply Forall_cons in HP as [Px HP]. constructor; [by apply IH|].
  rewrite Forall_forall in Hx, HP. apply Forall_forall. auto.
Qed.

Lemma StronglySorted_take {A} (R : relation A) n l :
  StronglySorted R l → StronglySorted R (take n l).
Proof.
  intros Hl. rewrite <-(take_drop n l) in Hl.
  by apply StronglySorted_app_1_l in Hl.
Qed.

Lemma StronglySorted_drop {A} (R : relation A) n l :
  StronglySorted R l → StronglySorted R (drop n l).
Proof.
  intros Hl. rewrite <-(take_drop n l) in Hl.
  by apply StronglySorted_app_1_r in Hl.
Qed.

Lemma StronglySorted_snoc {A} (R : relation A) l x :
  StronglySorted R l → Forall (λ y, R y x) l →
  StronglySorted R (l ++ [x])%list.
Proof.
  intros Hl Hx. apply StronglySorted_app_2; [|done|repeat constructor].
  intros y x' Hy Hx'. apply list_elem_of_singleton in Hx' as ->.
  rewrite Forall_forall in Hx. auto.
Qed.

Lemma filter_none {A} (Q : A → Prop) `{∀ x, Decision (Q x)} (l : list A) :
  Forall (λ x, ¬ Q x) l → filter Q l = [].
Proof.
  induction 1 as [|x l Hx Hl IH]; [done|].
  by rewrite filter_cons, decide_False.
Qed.

(** ** The result of a stable sort is determined

    With a consistent comparator the sort yields the stable sorted
    rearrangement of its input, and there is only one: the result does
    not depend on how an engine goes about sorting. *)

Section stable_sort_determined.
Context {A : Type} (comparefn : A → A → option Z) (P : A → Prop).
Hypothesis consistent : consistent_on comparefn P.

Local Abbreviation tie := (sort_tie comparefn).
Local Abbreviation sle := (sort_le comparefn).
Local Abbreviation cmp := (SortCompare comparefn).

Lemma not_before_le x y :
  P x → P y → sorts_before comparefn x y = false → sle y x.
Proof.
  intros Px Py Hxy. apply sorts_before_false in Hxy.
  destruct (decide (cmp x y = 0)%Z) as [Htie|Hne].
  - assert (tie y x) as Hyx by by apply (cons_tie_sym _ _ consistent).
    unfold sort_tie in Hyx. unfold sort_le. lia.
  - apply (cons_gt_flip _ _ consistent); [done..|lia].
Qed.

Lemma before_le x y : sorts_before comparefn x y = true → sle x y.
Proof. intros Hxy%sorts_before_true. unfold sort_le. lia. Qed.

(** Two elements of one tie class are not ordered strictly. *)
Lemma tie_class_not_before z x y :
  P z → P x → P y → tie z x → tie z y → sorts_before comparefn x y = false.
Proof.
  intros Pz Px Py Hzx Hzy. apply sorts_before_false.
  assert (tie x y) as Hxy.
  { apply (cons_tie_trans _ _ consistent x z y); [done..| |done].
    by apply (cons_tie_sym _ _ consistent). }
  unfold sort_tie in Hxy. lia.
Qed.

(** *** The binary search *)

Lemma BinarySearch_spec fuel pivot work left right :
  P pivot → Forall P work → StronglySorted sle work →
  (right - left ≤ fuel)%nat → (left ≤ right)%nat → (right ≤ length work)%nat →
  (∀ i x, (i < left)%nat → work !! i = Some x →
          sorts_before comparefn pivot x = false) →
  (∀ i x, (right ≤ i)%nat → work !! i = Some x →
          sorts_before comparefn pivot x = true) →
  (BinarySearch fuel comparefn pivot work left right ≤ length work)%nat
  ∧ (∀ i x, (i < BinarySearch fuel comparefn pivot work left right)%nat →
            work !! i = Some x → sorts_before comparefn pivot x = false)
  ∧ (∀ i x, (BinarySearch fuel comparefn pivot work left right ≤ i)%nat →
            work !! i = Some x → sorts_before comparefn pivot x = true).
Proof.
  intros Ppivot Pwork Hsorted. revert left right.
  induction fuel as [|fuel IH]; intros left right Hfuel Hlr Hr Hleft Hright.
  { cbn. assert (left = right) as -> by lia. auto. }
  cbn [BinarySearch]. case_bool_decide as Hlt; [|
    assert (left = right) as -> by lia; auto].
  set (mid := (left + (right - left) / 2)%nat).
  assert ((left ≤ mid)%nat ∧ (mid < right)%nat) as [Hlm Hmr].
  { unfold mid. split; [lia|].
    assert ((right - left) / 2 < right - left)%nat; [|lia].
    apply Nat.div_lt; lia. }
  destruct (work !! mid) as [x|] eqn:Hmid;
    [|apply lookup_ge_None in Hmid; lia].
  assert (P x) as Px.
  { rewrite Forall_forall in Pwork. apply Pwork.
    by eapply list_elem_of_lookup_2. }
  destruct (sorts_before comparefn pivot x) eqn:Hpx.
  - apply IH; [lia..|done|].
    intros i y Hi Hy. destruct (decide (i = mid)) as [->|Hne].
    { by simplify_eq. }
    assert (P y) as Py.
    { rewrite Forall_forall in Pwork. apply Pwork.
      by eapply list_elem_of_lookup_2. }
    assert (sle x y) as Hxy.
    { apply (StronglySorted_lookup _ _ mid i x y Hsorted); [lia|done..]. }
    apply sorts_before_true. apply sorts_before_true in Hpx.
    by apply (cons_lt_le_trans _ _ consistent pivot x y).
  - apply IH; [lia..| |done].
    intros i y Hi Hy. destruct (decide (i = mid)) as [->|Hne].
    { by simplify_eq. }
    assert (P y) as Py.
    { rewrite Forall_forall in Pwork. apply Pwork.
      by eapply list_elem_of_lookup_2. }
    assert (sle y x) as Hyx.
    { apply (StronglySorted_lookup _ _ i mid y x Hsorted); [lia|done..]. }
    destruct (sorts_before comparefn pivot y) eqn:Hpy; [|done].
    apply sorts_before_true in Hpy.
    pose proof (cons_lt_le_trans _ _ consistent pivot y x
                  Ppivot Py Px Hpy Hyx) as Hcontra.
    apply sorts_before_false in Hpx. lia.
Qed.

(** The place that the search finds splits the sorted front into the
    elements that stay before the pivot and those that it precedes
    strictly. *)
Lemma BinarySearch_split pivot work :
  P pivot → Forall P work → StronglySorted sle work →
  let pos := BinarySearch (length work) comparefn pivot work 0 (length work) in
  Forall (λ x, sorts_before comparefn pivot x = false) (take pos work)
  ∧ Forall (λ x, sorts_before comparefn pivot x = true) (drop pos work).
Proof.
  intros Ppivot Pwork Hsorted pos.
  assert ((pos ≤ length work)%nat
          ∧ (∀ i x, (i < pos)%nat → work !! i = Some x →
                    sorts_before comparefn pivot x = false)
          ∧ (∀ i x, (pos ≤ i)%nat → work !! i = Some x →
                    sorts_before comparefn pivot x = true))
    as (Hpos & Hbefore & Hafter).
  { apply BinarySearch_spec; try done; try lia.
    all: intros i x Hi Hx; try lia; apply lookup_lt_Some in Hx; lia. }
  split.
  - apply Forall_forall. intros x Hx.
    apply list_elem_of_lookup in Hx as [i Hi].
    pose proof (lookup_lt_Some _ _ _ Hi) as Hlen.
    rewrite length_take in Hlen.
    rewrite lookup_take_lt in Hi by lia. apply (Hbefore i); [lia|done].
  - apply Forall_forall. intros x Hx.
    apply list_elem_of_lookup in Hx as [i Hi].
    rewrite lookup_drop in Hi. apply (Hafter (pos + i)); [lia|done].
Qed.

Lemma insert_at_sorted pivot work :
  P pivot → Forall P work → StronglySorted sle work →
  StronglySorted sle
    (insert_at (BinarySearch (length work) comparefn pivot work 0 (length work))
       pivot work).
Proof.
  intros Ppivot Pwork Hsorted.
  destruct (BinarySearch_split pivot work) as [Hbefore Hafter]; [done..|].
  set (pos := BinarySearch _ _ _ _ _ _) in *.
  assert (Forall P (take pos work)) as Ptake
    by (eapply Forall_take; done).
  assert (Forall P (drop pos work)) as Pdrop
    by (eapply Forall_drop; done).
  unfold insert_at. apply StronglySorted_app_2.
  - rewrite Forall_forall in Hbefore, Hafter, Ptake, Pdrop.
    intros x y Hx Hy. apply elem_of_cons in Hy as [->|Hy].
    + apply not_before_le; auto.
    + rewrite <-(take_drop pos work) in Hsorted.
      by apply (StronglySorted_app_1_elem_of _ _ _ x y Hsorted).
  - by apply StronglySorted_take.
  - constructor; [by apply StronglySorted_drop|].
    eapply Forall_impl; [exact Hafter|]. intros y. apply before_le.
Qed.

Lemma insert_at_filter_tie z pivot work :
  P z → P pivot → Forall P work → StronglySorted sle work →
  filter (tie z)
    (insert_at (BinarySearch (length work) comparefn pivot work 0 (length work))
       pivot work)
  = filter (tie z) (work ++ [pivot])%list.
Proof.
  intros Pz Ppivot Pwork Hsorted.
  destruct (BinarySearch_split pivot work) as [_ Hafter]; [done..|].
  set (pos := BinarySearch _ _ _ _ _ _) in *.
  unfold insert_at.
  rewrite <-(take_drop pos work) at 3.
  rewrite !filter_app, !filter_cons, filter_nil, <-app_assoc. f_equal.
  destruct (decide (tie z pivot)) as [Hzp|Hzp]; [|by rewrite app_nil_r].
  assert (filter (tie z) (drop pos work) = []) as ->; [|done].
  apply filter_none. rewrite Forall_forall in Hafter, Pwork.
  apply Forall_forall. intros y Hy Hzy.
  assert (y ∈ work) as Hyw by (by apply (subseteq_drop pos)).
  assert (sorts_before comparefn pivot y = false) as Hpy
    by (apply (tie_class_not_before z); auto).
  rewrite (Hafter y Hy) in Hpy. done.
Qed.

(** *** The insertion loop *)

Lemma BinaryInsertionSort_stable sorted rest :
  Forall P sorted → Forall P rest → StronglySorted sle sorted →
  StronglySorted sle (BinaryInsertionSort comparefn sorted rest)
  ∧ ∀ z, P z →
      filter (tie z) (BinaryInsertionSort comparefn sorted rest)
      = filter (tie z) (sorted ++ rest)%list.
Proof.
  revert sorted. induction rest as [|pivot rest IH];
    intros sorted Psorted Prest Hsorted.
  { cbn. by rewrite app_nil_r. }
  apply Forall_cons in Prest as [Ppivot Prest].
  cbn [BinaryInsertionSort].
  destruct (IH (insert_at
                  (BinarySearch (length sorted) comparefn pivot sorted 0
                     (length sorted)) pivot sorted)) as [Hs Hf].
  - rewrite insert_at_perm. by constructor.
  - done.
  - by apply insert_at_sorted.
  - split; [done|]. intros z Pz.
    rewrite Hf, filter_app, insert_at_filter_tie by done.
    by rewrite <-filter_app, <-app_assoc.
Qed.

(** *** The initial run *)

Lemma run_extend_chain descending previous l :
  Sorted (λ a b, sorts_before comparefn b a = descending)
    (previous :: (run_extend comparefn descending previous l).1).
Proof.
  revert previous. induction l as [|current l IH]; intros previous.
  { repeat constructor. }
  cbn [run_extend].
  destruct (Bool.eqb _ _) eqn:Heq; [|repeat constructor].
  apply Bool.eqb_prop in Heq. specialize (IH current).
  destruct (run_extend comparefn descending current l) as [run rest].
  cbn [fst] in *. constructor; [done|]. by constructor.
Qed.

Lemma Sorted_StronglySorted_on (R : relation A) l :
  (∀ a b c, P a → P b → P c → R a b → R b c → R a c) →
  Forall P l → Sorted R l → StronglySorted R l.
Proof.
  intros Htrans HP. induction 1 as [|x l Hl IH Hx]; [constructor|].
  apply Forall_cons in HP as [Px HP]. constructor; [by apply IH|].
  destruct Hx as [|y l Hxy]; [constructor|].
  specialize (IH HP). apply StronglySorted_cons in IH as [Hy _].
  pose proof HP as HP'. apply Forall_cons in HP' as [Py HP'].
  constructor; [done|].
  rewrite Forall_forall in Hy, HP'. apply Forall_forall. intros z Hz.
  apply (Htrans x y z); auto.
Qed.

(** A run without a descent is in order. *)
Lemma ascending_run_sorted l :
  Forall P l →
  Sorted (λ a b, sorts_before comparefn b a = false) l →
  StronglySorted sle l.
Proof.
  intros HP Hl.
  apply Sorted_StronglySorted_on; [apply (cons_le_trans _ _ consistent)|done|].
  clear -consistent HP Hl. induction Hl as [|x l Hl IH Hx]; [constructor|].
  apply Forall_cons in HP as [Px HP]. constructor; [by apply IH|].
  destruct Hx as [|y l Hxy]; constructor.
  apply Forall_cons in HP as [Py _]. by apply not_before_le.
Qed.

(** In a strictly descending run every element is strictly before all
    those that precede it. *)
Lemma descending_run_strict l :
  Forall P l →
  Sorted (λ a b, sorts_before comparefn b a = true) l →
  StronglySorted (λ a b, sorts_before comparefn b a = true) l.
Proof.
  intros HP. apply Sorted_StronglySorted_on; [|done].
  intros a b c Pa Pb Pc Hba%sorts_before_true Hcb%sorts_before_true.
  apply sorts_before_true.
  apply (cons_lt_le_trans _ _ consistent c b a); [done..|].
  unfold sort_le. lia.
Qed.

Lemma descending_run_reverse_sorted l :
  StronglySorted (λ a b, sorts_before comparefn b a = true) l →
  StronglySorted sle (reverse l).
Proof.
  induction 1 as [|x l Hl IH Hx]; [constructor|].
  rewrite reverse_cons. apply StronglySorted_snoc; [done|].
  rewrite Forall_forall in Hx. apply Forall_forall. intros y Hy.
  rewrite elem_of_reverse in Hy. apply before_le. by apply Hx.
Qed.

Lemma descending_run_reverse_filter z l :
  P z → Forall P l →
  StronglySorted (λ a b, sorts_before comparefn b a = true) l →
  filter (tie z) (reverse l) = filter (tie z) l.
Proof.
  intros Pz HP. induction 1 as [|x l Hl IH Hx]; [done|].
  apply Forall_cons in HP as [Px HP].
  rewrite reverse_cons, filter_app, IH, !filter_cons, filter_nil by done.
  destruct (decide (tie z x)) as [Hzx|Hzx]; [|by rewrite app_nil_r].
  assert (filter (tie z) l = []) as ->; [|done].
  apply filter_none. rewrite Forall_forall in Hx, HP.
  apply Forall_forall. intros y Hy Hzy.
  assert (sorts_before comparefn y x = false) as Hyx
    by (apply (tie_class_not_before z); auto).
  rewrite (Hx y Hy) in Hyx. done.
Qed.

Lemma CountAndMakeRun_stable l :
  Forall P l →
  StronglySorted sle (CountAndMakeRun comparefn l).1
  ∧ ∀ z, P z →
      filter (tie z) ((CountAndMakeRun comparefn l).1
                        ++ (CountAndMakeRun comparefn l).2)%list
      = filter (tie z) l.
Proof.
  intros HP. destruct l as [|a0 [|a1 l]].
  { cbn. split; [constructor|done]. }
  { cbn. split; [repeat constructor|done]. }
  cbn [CountAndMakeRun].
  pose proof (run_extend_app comparefn (sorts_before comparefn a1 a0) a1 l)
    as Happ.
  pose proof (run_extend_chain (sorts_before comparefn a1 a0) a1 l) as Hchain.
  destruct (run_extend comparefn (sorts_before comparefn a1 a0) a1 l)
    as [run rest]. cbn in Happ, Hchain.
  assert (Forall P (a0 :: a1 :: run)) as Prun.
  { rewrite <-Happ in HP. apply Forall_cons in HP as [P0 HP].
    apply Forall_cons in HP as [P1 HP]. apply Forall_app in HP as [HP _].
    by repeat constructor. }
  destruct (sorts_before comparefn a1 a0) eqn:Hdesc; cbn [fst snd].
  - assert (StronglySorted (λ a b, sorts_before comparefn b a = true)
              (a0 :: a1 :: run)) as Hstrict.
    { apply descending_run_strict; [done|].
      constructor; [done|]. by constructor. }
    split; [by apply descending_run_reverse_sorted|].
    intros z Pz. rewrite filter_app, descending_run_reverse_filter by done.
    by rewrite <-filter_app, <-Happ.
  - split.
    + apply ascending_run_sorted; [done|].
      constructor; [done|]. by constructor.
    + intros z Pz. by rewrite <-Happ.
Qed.

(** *** The sort as a whole *)

Lemma array_sort_sorted l :
  Forall P l → StronglySorted sle (array_sort comparefn l).
Proof.
  intros HP. unfold array_sort.
  destruct (CountAndMakeRun_stable l HP) as [Hrun _].
  pose proof (CountAndMakeRun_perm comparefn l) as Hperm.
  destruct (CountAndMakeRun comparefn l) as [run rest]. cbn in *.
  rewrite <-Hperm in HP. apply Forall_app in HP as [Prun Prest].
  by apply BinaryInsertionSort_stable.
Qed.

Lemma array_sort_stable l :
  Forall P l → stable_sort_of comparefn l (array_sort comparefn l).
Proof.
  intros HP. split_and!.
  - apply array_sort_perm.
  - by apply array_sort_sorted.
  - intros z Hz.
    assert (P z) as Pz by (rewrite Forall_forall in HP; auto).
    unfold array_sort.
    destruct (CountAndMakeRun_stable l HP) as [Hrun Hfil].
    pose proof (CountAndMakeRun_perm comparefn l) as Hperm.
    destruct (CountAndMakeRun comparefn l) as [run rest]. cbn in *.
    rewrite <-Hperm in HP. apply Forall_app in HP as [Prun Prest].
    destruct (BinaryInsertionSort_stable run rest) as [_ Hf]; [done..|].
    by rewrite Hf, Hfil.
Qed.

Lemma stable_sorted_unique l1 l2 :
  Forall P l1 → l1 ≡ₚ l2 →
  StronglySorted sle l1 → StronglySorted sle l2 →
  (∀ z, z ∈ l1 → filter (tie z) l1 = filter (tie z) l2) →
  l1 = l2.
Proof.
  revert l2. induction l1 as [|x1 t1 IH]; intros l2 P1 Hperm S1 S2 Hfil.
  { symmetry. by apply Permutation_nil. }
  destruct l2 as [|x2 t2].
  { by apply Permutation_nil_r in Hperm. }
  assert (Forall P (x2 :: t2)) as P2 by (by rewrite <-Hperm).
  apply Forall_cons in P1 as [Px1 Pt1]. pose proof P2 as P2'.
  apply Forall_cons in P2' as [Px2 Pt2].
  apply StronglySorted_cons in S1 as [H1 S1].
  apply StronglySorted_cons in S2 as [H2 S2].
  assert (x1 = x2) as <-.
  { assert (tie x1 x2) as Htie.
    { assert (x1 ∈ x2 :: t2) as Hin1 by (rewrite <-Hperm; left).
      assert (x2 ∈ x1 :: t1) as Hin2 by (rewrite Hperm; left).
      rewrite Forall_forall in H1, H2.
      apply elem_of_cons in Hin1 as [->|Hin1];
        [by apply (cons_tie_refl _ _ consistent)|].
      apply elem_of_cons in Hin2 as [->|Hin2];
        [by apply (cons_tie_refl _ _ consistent)|].
      apply (cons_le_antisym _ _ consistent); auto. }
    specialize (Hfil x1 ltac:(left)).
    rewrite !filter_cons, !decide_True in Hfil
      by (done || by apply (cons_tie_refl _ _ consistent)).
    by simplify_eq. }
  f_equal. apply IH; try done.
  - by apply (inj (x1 ::.)).
  - intros z Hz. specialize (Hfil z ltac:(by right)).
    rewrite !filter_cons in Hfil. case_decide; by simplify_eq.
Qed.

(** Every stable sorted rearrangement is the one [array_sort] computes. *)
Lemma array_sort_determined l l' :
  Forall P l → stable_sort_of comparefn l l' → l' = array_sort comparefn l.
Proof.
  intros Pl (Hperm & Hsorted & Hfil).
  destruct (array_sort_stable l Pl) as (Hperm' & Hsorted' & Hfil').
  apply stable_sorted_unique; try done.
  - by rewrite Hperm.
  - by rewrite Hperm, Hperm'.
  - intros z Hz. rewrite Hperm in Hz. by rewrite Hfil, Hfil'.
Qed.

End stable_sort_determined.

(** * The join *)

Lemma length_joined ws o : length (joined ws o) = length ws.
Proof. unfold joined. apply length_fmap. Qed.

Lemma lookup_joined ws o i :
  joined ws o !! i = toRanked o <$> ws !! i.
Proof. unfold joined. apply list_lookup_fmap. Qed.

(** The joined sequence reads the count map at the identifiers of the
    workplaces and nowhere else. *)
Lemma joined_ext ws o1 o2 :
  (∀ w, w ∈ ws → get_prop o1 (Workplace.id w) = get_prop o2 (Workplace.id w)) →
  joined ws o1 = joined ws o2.
Proof.
  intros Hget. unfold joined. apply list_fmap_ext. intros i w Hw.
  unfold toRanked. f_equal. f_equal. apply Hget.
  by eapply list_elem_of_lookup_2.
Qed.

Lemma joined_countShifts_ext ws ss1 ss2 :
  (∀ w, w ∈ ws → length (referencing (Workplace.id w) ss1) =
                 length (referencing (Workplace.id w) ss2)) →
  joined ws (countShifts ss1) = joined ws (countShifts ss2).
Proof.
  intros Hn. apply joined_ext. intros w Hw.
  by rewrite !get_countShifts, Hn.
Qed.

(** Off the names of [Object.prototype], the entry produced for a
    workplace carries the number of shift records that reference it. *)
Lemma joined_counts_ordinary ws ss i w :
  ws !! i = Some w → inherited (Workplace.id w) = false →
  joined ws (countShifts ss) !! i =
    Some (TopWorkPlaces.mk (Workplace.name w)
            (VNum (Z.of_nat (length (referencing (Workplace.id w) ss))))).
Proof.
  intros Hi Hw. rewrite lookup_joined, Hi. cbn. f_equal.
  unfold toRanked. by rewrite get_countShifts, tally_ordinary.
Qed.

Lemma length_getTopThreeWorkplaces ws o :
  length (getTopThreeWorkplaces ws o) = Nat.min (length ws) 3.
Proof.
  unfold getTopThreeWorkplaces, slice0.
  rewrite length_take, length_array_sort, length_joined. lia.
Qed.

Lemma getTopWorkplaces_success ws ss :
  getTopWorkplaces (HttpResponse (Body (Array ws)))
                   (HttpResponse (Body (Array ss)))
  = (Fulfilled (getTopThreeWorkplaces ws (countShifts ss)), []).
Proof. reflexivity. Qed.

Lemma countShifts_fmap ss :
  countShifts ss =
    fold_left (λ acc k, set_prop acc k (bump (get_prop acc k)))
              (Shift.workplaceId <$> ss) ∅.
Proof.
  unfold countShifts. generalize (∅ : gmap string jsval).
  induction ss as [|s ss IH]; intros acc; [done|].
  rewrite fmap_cons. cbn [fold_left]. apply IH.
Qed.

Lemma referencing_idemp k ss : referencing k (referencing k ss) = referencing k ss.
Proof.
  unfold referencing. induction ss as [|s ss IH]; [done|].
  rewrite filter_cons. case_decide as Hs; [|done].
  by rewrite filter_cons, decide_True, IH.
Qed.

Lemma elem_of_getTopThreeWorkplaces ws o r :
  r ∈ getTopThreeWorkplaces ws o → ∃ w, w ∈ ws ∧ r = toRanked o w.
Proof.
  unfold getTopThreeWorkplaces, slice0. intros Hr.
  apply (subseteq_take 3) in Hr. rewrite array_sort_perm in Hr.
  apply list_elem_of_fmap in Hr as (w & -> & Hw). eauto.
Qed.

(** * Properties of the operation *)

(** C2. When both retrievals deliver a collection, [getTopWorkplaces]
    returns a sequence of exactly [min W 3] entries, [W] being the number
    of workplace records. *)
Theorem C2_result_length ws ss :
  ∃ r, getTopWorkplaces (HttpResponse (Body (Array ws)))
                        (HttpResponse (Body (Array ss)))
       = (Fulfilled r, [])
       ∧ length r = Nat.min (length ws) 3.
Proof.
  eexists. split; [apply getTopWorkplaces_success|].
  apply length_getTopThreeWorkplaces.
Qed.

Lemma referencing_known ws ss w :
  w ∈ ws →
  referencing (Workplace.id w) (filter (known ws) ss) =
  referencing (Workplace.id w) ss.
Proof.
  intros Hw. unfold referencing.
  induction ss as [|s ss IH]; [done|].
  rewrite !filter_cons.
  destruct (decide (Shift.workplaceId s = Workplace.id w)) as [Heq|Hne].
  - rewrite decide_True.
    + by rewrite filter_cons, decide_True, IH.
    + unfold known. rewrite Heq. by apply list_elem_of_fmap_2.
  - case_decide; [|done]. by rewrite filter_cons, decide_False.
Qed.

(** C5. Orphan shifts leave no trace in the output: every returned entry
    is the entry of a workplace record, computed from the shift records
    that reference that workplace alone, and the output is the same once
    all the orphan shifts are removed from the input. *)
Theorem C5_orphans_excluded ws ss :
  getTopThreeWorkplaces ws (countShifts (filter (known ws) ss))
  = getTopThreeWorkplaces ws (countShifts ss)
  ∧ ∀ r, r ∈ getTopThreeWorkplaces ws (countShifts ss) →
      ∃ w, w ∈ ws ∧
           r = toRanked (countShifts (referencing (Workplace.id w) ss)) w.
Proof.
  split.
  - unfold getTopThreeWorkplaces. f_equal. f_equal.
    apply joined_countShifts_ext. intros w Hw.
    by rewrite referencing_known.
  - intros r Hr. apply elem_of_getTopThreeWorkplaces in Hr as (w & Hw & ->).
    exists w. split; [done|]. unfold toRanked.
    by rewrite !get_countShifts, referencing_idemp.
Qed.

(** C7. The aggregation reads nothing but the [workplaceId] of a shift
    record: two shift collections with the same [workplaceId]s, position by
    position, give the same count map and the same output, whatever their
    [workerId]s. *)
Theorem C7_workerId_unused ws ss1 ss2 :
  Shift.workplaceId <$> ss1 = Shift.workplaceId <$> ss2 →
  countShifts ss1 = countShifts ss2
  ∧ getTopThreeWorkplaces ws (countShifts ss1)
    = getTopThreeWorkplaces ws (countShifts ss2)
  ∧ getTopWorkplaces (HttpResponse (Body (Array ws)))
                     (HttpResponse (Body (Array ss1)))
    = getTopWorkplaces (HttpResponse (Body (Array ws)))
                       (HttpResponse (Body (Array ss2))).
Proof.
  intros Hids.
  assert (countShifts ss1 = countShifts ss2) as Hc.
  { by rewrite !countShifts_fmap, Hids. }
  by rewrite !getTopWorkplaces_success, Hc.
Qed.

Lemma C7_workerId_unused_witness :
  getTopThreeWorkplaces [Workplace.mk "A" "Alpha"; Workplace.mk "B" "Beta"]
    (countShifts [Shift.mk "B" "w1"; Shift.mk "A" "w2"; Shift.mk "B" "w3"])
  = getTopThreeWorkplaces [Workplace.mk "A" "Alpha"; Workplace.mk "B" "Beta"]
    (countShifts [Shift.mk "B" "w7"; Shift.mk "A" "w7"; Shift.mk "B" "w2"]).
Proof.
  apply (C7_workerId_unused
           [Workplace.mk "A" "Alpha"; Workplace.mk "B" "Beta"]
           [Shift.mk "B" "w1"; Shift.mk "A" "w2"; Shift.mk "B" "w3"]
           [Shift.mk "B" "w7"; Shift.mk "A" "w7"; Shift.mk "B" "w2"]).
  reflexivity.
Defined.

Lemma getTopWorkplaces_never_rejects {rw rs} :
  ∃ r, (getTopWorkplaces rw rs).1 = Fulfilled r.
Proof.
  unfold getTopWorkplaces.
  destruct (getTopWorkplaces_try rw rs); cbn; eauto.
Qed.

(** C6. When a retrieval fails (the request is rejected, or the response
    carries no body or no envelope field), the promise returned by
    [getTopWorkplaces] is fulfilled with the empty sequence and the error
    goes to the console instead of the caller. Whatever the retrievals
    do, the promise is never rejected. *)
Theorem C6_failure_contained rw rs :
  retrieval_fails rw || retrieval_fails rs = true →
  (∃ e, getTopWorkplaces rw rs = (Fulfilled [], [e]))
  ∧ ∀ rw' rs', ∃ r, (getTopWorkplaces rw' rs').1 = Fulfilled r.
Proof.
  intros Hfail. split; [|intros; apply getTopWorkplaces_never_rejects].
  unfold getTopWorkplaces, getTopWorkplaces_try.
  destruct rw as [e1|[|[| |lw|]]], rs as [e2|[|[| |ls|]]];
    cbn in Hfail |- *; try discriminate; eauto.
Qed.

Lemma C6_failure_contained_witness :
  ∃ e, getTopWorkplaces
         (HttpResponse (Body (Array [Workplace.mk "A" "Alpha"])))
         (HttpResponse (Body (@Undefined Shift.t)))
       = (Fulfilled [], [e]).
Proof.
  apply (C6_failure_contained
           (HttpResponse (Body (Array [Workplace.mk "A" "Alpha"])))
           (HttpResponse (Body (@Undefined Shift.t)))).
  reflexivity.
Defined.

(** ** Counts and order off the names of [Object.prototype] *)

Lemma shifts_ge_trans a b c : shifts_ge a b → shifts_ge b c → shifts_ge a c.
Proof.
  unfold shifts_ge.
  destruct (TopWorkPlaces.shifts a), (TopWorkPlaces.shifts b),
    (TopWorkPlaces.shifts c); try done. lia.
Qed.

(** On entries whose [shifts] are numbers the comparator
    [(a, b) => b.shifts - a.shifts] is a consistent comparison function. *)
Lemma byShiftsDesc_consistent :
  consistent_on byShiftsDesc (λ r, ∃ n, TopWorkPlaces.shifts r = VNum n).
Proof.
  split.
  all: unfold sort_tie, sort_le, SortCompare, byShiftsDesc, js_sub.
  - intros a [x Ha]. rewrite Ha. cbn. lia.
  - intros a b [x Ha] [y Hb]. rewrite Ha, Hb. cbn. lia.
  - intros a b c [x Ha] [y Hb] [z Hc]. rewrite Ha, Hb, Hc. cbn. lia.
  - intros a b c [x Ha] [y Hb] [z Hc]. rewrite Ha, Hb, Hc. cbn. lia.
  - intros a b [x Ha] [y Hb]. rewrite Ha, Hb. cbn. lia.
  - intros a b [x Ha] [y Hb]. rewrite Ha, Hb. cbn. lia.
  - intros a b c [x Ha] [y Hb] [z Hc]. rewrite Ha, Hb, Hc. cbn. lia.
Qed.

Lemma sort_le_shifts_ge a b :
  (∃ n, TopWorkPlaces.shifts a = VNum n) →
  (∃ n, TopWorkPlaces.shifts b = VNum n) →
  sort_le byShiftsDesc a b → shifts_ge a b.
Proof.
  intros [x Ha] [y Hb].
  unfold sort_le, SortCompare, byShiftsDesc, js_sub, shifts_ge.
  rewrite Ha, Hb. cbn. lia.
Qed.

Lemma joined_numeric ws ss :
  Forall (λ w, inherited (Workplace.id w) = false) ws →
  Forall (λ r, ∃ n, TopWorkPlaces.shifts r = VNum n)
         (joined ws (countShifts ss)).
Proof.
  intros Hws. unfold joined. apply Forall_fmap.
  eapply Forall_impl; [exact Hws|].
  intros w Hw. cbn. rewrite get_countShifts, tally_ordinary by done. eauto.
Qed.

Lemma array_sort_joined_sorted ws ss :
  Forall (λ w, inherited (Workplace.id w) = false) ws →
  StronglySorted shifts_ge
    (array_sort byShiftsDesc (joined ws (countShifts ss))).
Proof.
  intros Hws. pose proof (joined_numeric ws ss Hws) as Hnum.
  apply (StronglySorted_weaken_on
           (λ r, ∃ n, TopWorkPlaces.shifts r = VNum n) (sort_le byShiftsDesc)).
  - apply sort_le_shifts_ge.
  - by rewrite array_sort_perm.
  - by apply (array_sort_sorted _ _ byShiftsDesc_consistent).
Qed.

(** When no workplace identifier is a name of [Object.prototype], every
    [shifts] field is a number, the comparator is consistent, and the
    returned sequence is sorted by count, descending. *)
Lemma getTopThreeWorkplaces_sorted ws ss :
  Forall (λ w, inherited (Workplace.id w) = false) ws →
  StronglySorted shifts_ge (getTopThreeWorkplaces ws (countShifts ss)).
Proof.
  intros Hws. unfold getTopThreeWorkplaces, slice0.
  by apply StronglySorted_take, array_sort_joined_sorted.
Qed.

(** On the same inputs the sort is stable on the whole joined sequence:
    the entries that compare equal keep the order of the workplace
    collection. *)
Lemma joined_sort_stable ws ss :
  Forall (λ w, inherited (Workplace.id w) = false) ws →
  stable_sort_of byShiftsDesc (joined ws (countShifts ss))
    (array_sort byShiftsDesc (joined ws (countShifts ss))).
Proof.
  intros Hws.
  apply (array_sort_stable _ _ byShiftsDesc_consistent).
  by apply joined_numeric.
Qed.

(** On the same inputs the returned sequence does not depend on how
    the engine sorts: whatever stable sorted rearrangement of the joined
    sequence it produces, the first three entries are those of the
    model. *)
Lemma getTopThreeWorkplaces_determined ws ss l' :
  Forall (λ w, inherited (Workplace.id w) = false) ws →
  stable_sort_of byShiftsDesc (joined ws (countShifts ss)) l' →
  slice0 3 l' = getTopThreeWorkplaces ws (countShifts ss).
Proof.
  intros Hws Hl'. unfold getTopThreeWorkplaces. f_equal.
  apply (array_sort_determined _ _ byShiftsDesc_consistent); [|done].
  by apply joined_numeric.
Qed.

Lemma getTopThreeWorkplaces_adjacent ws ss i a b :
  Forall (λ w, inherited (Workplace.id w) = false) ws →
  getTopThreeWorkplaces ws (countShifts ss) !! i = Some a →
  getTopThreeWorkplaces ws (countShifts ss) !! S i = Some b →
  shifts_ge a b.
Proof.
  intros Hws Ha Hb.
  apply (StronglySorted_lookup _ _ i (S i) a b
           (getTopThreeWorkplaces_sorted ws ss Hws)); [lia|done..].
Qed.

(** Every workplace record, unique identifier or not, has its own entry in
    the joined sequence; records with one identifier carry one [shifts]
    value, which is the number of shift records referencing the identifier
    unless that identifier is a name of [Object.prototype]. *)
Lemma joined_duplicate_ids ws ss :
  length (joined ws (countShifts ss)) = length ws
  ∧ (∀ i w, ws !! i = Some w →
       joined ws (countShifts ss) !! i = Some (toRanked (countShifts ss) w))
  ∧ (∀ w w', Workplace.id w = Workplace.id w' →
       TopWorkPlaces.shifts (toRanked (countShifts ss) w)
       = TopWorkPlaces.shifts (toRanked (countShifts ss) w'))
  ∧ (∀ w, inherited (Workplace.id w) = false →
       TopWorkPlaces.shifts (toRanked (countShifts ss) w)
       = VNum (Z.of_nat (length (referencing (Workplace.id w) ss)))).
Proof.
  split_and!.
  - apply length_joined.
  - intros i w Hi. by rewrite lookup_joined, Hi.
  - intros w w' Hid. cbn. by rewrite Hid.
  - intros w Hw. cbn. by rewrite get_countShifts, tally_ordinary.
Qed.

(** ** Identifiers that are names of [Object.prototype] *)

(** C1. A workplace whose identifier is [constructor] and that no shift
    record references is reported with the built-in found under that
    name on [Object.prototype], not with the count 0; with one shift
    record, with a string instead of the count 1. *)
Theorem C1_inherited_id_miscounted :
  length (referencing "constructor" []) = 0
  ∧ joined [Workplace.mk "constructor" "HQ"] (countShifts [])
    = [TopWorkPlaces.mk "HQ" (VBuiltin "constructor")]
  ∧ length (referencing "constructor" [Shift.mk "constructor" "w1"]) = 1
  ∧ joined [Workplace.mk "constructor" "HQ"]
           (countShifts [Shift.mk "constructor" "w1"])
    = [TopWorkPlaces.mk "HQ" (VText "constructor" 1)].
Proof. vm_compute. done. Qed.

(** C4. With a workplace whose identifier is [valueOf], the returned
    sequence holds an entry without a count in front of the entry with two
    shifts; no arrangement of the two entries is sorted by count. *)
Theorem C4_inherited_id_unsorted :
  getTopWorkplaces
    (HttpResponse (Body (Array [Workplace.mk "valueOf" "Annex";
                                Workplace.mk "A" "Alpha"])))
    (HttpResponse (Body (Array [Shift.mk "A" "w1"; Shift.mk "A" "w2"])))
  = (Fulfilled [TopWorkPlaces.mk "Annex" (VBuiltin "valueOf");
                TopWorkPlaces.mk "Alpha" (VNum 2)], [])
  ∧ ¬ shifts_ge (TopWorkPlaces.mk "Annex" (VBuiltin "valueOf"))
                (TopWorkPlaces.mk "Alpha" (VNum 2))
  ∧ ¬ shifts_ge (TopWorkPlaces.mk "Alpha" (VNum 2))
                (TopWorkPlaces.mk "Annex" (VBuiltin "valueOf")).
Proof. split; [by vm_compute|]. split; intros []. Qed.

(** C3. Seven workplaces, the fourth with the identifier [valueOf];
    Epsilon, the fifth, and Eta, the seventh, have one shift each. The
    comparator answers [NaN] on the entry of [valueOf] and the sort loses
    its stability: in the sorted sequence Eta stands before Epsilon, and
    the result holds Eta while Epsilon is dropped. The tie does not keep
    the order of the workplace collection. *)
Theorem C3_inherited_id_breaks_ties :
  toRanked (countShifts [Shift.mk "E" "w1"; Shift.mk "F" "w1";
                         Shift.mk "F" "w2"; Shift.mk "G" "w1"])
           (Workplace.mk "E" "Epsilon")
  = TopWorkPlaces.mk "Epsilon" (VNum 1)
  ∧ toRanked (countShifts [Shift.mk "E" "w1"; Shift.mk "F" "w1";
                           Shift.mk "F" "w2"; Shift.mk "G" "w1"])
             (Workplace.mk "G" "Eta")
    = TopWorkPlaces.mk "Eta" (VNum 1)
  ∧ array_sort byShiftsDesc
      (joined [Workplace.mk "A" "Alpha"; Workplace.mk "B" "Beta";
               Workplace.mk "C" "Gamma"; Workplace.mk "valueOf" "Delta";
               Workplace.mk "E" "Epsilon"; Workplace.mk "F" "Zeta";
               Workplace.mk "G" "Eta"]
         (countShifts [Shift.mk "E" "w1"; Shift.mk "F" "w1";
                       Shift.mk "F" "w2"; Shift.mk "G" "w1"]))
    = [TopWorkPlaces.mk "Zeta" (VNum 2); TopWorkPlaces.mk "Eta" (VNum 1);
       TopWorkPlaces.mk "Alpha" (VNum 0); TopWorkPlaces.mk "Beta" (VNum 0);
       TopWorkPlaces.mk "Gamma" (VNum 0);
       TopWorkPlaces.mk "Delta" (VBuiltin "valueOf");
       TopWorkPlaces.mk "Epsilon" (VNum 1)]
  ∧ getTopWorkplaces
      (HttpResponse (Body (Array
         [Workplace.mk "A" "Alpha"; Workplace.mk "B" "Beta";
          Workplace.mk "C" "Gamma"; Workplace.mk "valueOf" "Delta";
          Workplace.mk "E" "Epsilon"; Workplace.mk "F" "Zeta";
          Workplace.mk "G" "Eta"])))
      (HttpResponse (Body (Array
         [Shift.mk "E" "w1"; Shift.mk "F" "w1";
          Shift.mk "F" "w2"; Shift.mk "G" "w1"])))
    = (Fulfilled [TopWorkPlaces.mk "Zeta" (VNum 2);
                  TopWorkPlaces.mk "Eta" (VNum 1);
                  TopWorkPlaces.mk "Alpha" (VNum 0)], []).
Proof. vm_compute. done. Qed.

(** C10. Two workplace records share the identifier [toString], which two
    shift records reference: both entries carry the same value, but it is
    a string, not the count 2. *)
Theorem C10_duplicate_inherited_id_miscounted :
  length (referencing "toString"
            [Shift.mk "toString" "w1"; Shift.mk "toString" "w2"]) = 2
  ∧ joined [Workplace.mk "toString" "North"; Workplace.mk "toString" "South"]
           (countShifts [Shift.mk "toString" "w1"; Shift.mk "toString" "w2"])
    = [TopWorkPlaces.mk "North" (VText "toString" 2);
       TopWorkPlaces.mk "South" (VText "toString" 2)].
Proof. vm_compute. done. Qed.

(** * The store: what the methods write *)

Lemma alloc_spec (h : heap) c :
  h !! (alloc h c).1 = None ∧ (alloc h c).2 = <[(alloc h c).1 := c]> h.
Proof.
  unfold alloc. cbn. split; [|done].
  apply not_elem_of_dom, is_fresh.
Qed.

Lemma reduce_st_spec (h : heap) acc o l :
  h !! acc = Some (CObject o) →
  reduce_st h acc l
  = Some (acc, <[acc := CObject (fold_left countStep l o)]> h).
Proof.
  revert h o. induction l as [|s l IH]; intros h o Hacc.
  - cbn. by rewrite insert_id.
  - cbn [reduce_st fold_left]. unfold countStep_st. rewrite Hacc.
    rewrite (IH _ (countStep o s)) by apply lookup_insert_eq.
    by rewrite insert_insert_eq.
Qed.

Lemma countShifts_st_spec (h : heap) shifts l :
  h !! shifts = Some (CShifts l) →
  ∃ acc, h !! acc = None
         ∧ countShifts_st h shifts
           = Some (acc, <[acc := CObject (countShifts l)]> h).
Proof.
  intros Hs. unfold countShifts_st. rewrite Hs.
  destruct (alloc_spec h (CObject ∅)) as [Hfresh Hh].
  destruct (alloc h (CObject ∅)) as [acc h0]. cbn in Hfresh, Hh. subst h0.
  exists acc. split; [done|].
  rewrite (reduce_st_spec _ _ ∅) by apply lookup_insert_eq.
  by rewrite insert_insert_eq.
Qed.

Lemma map_st_spec (h : heap) workplaces shiftCounts l o :
  h !! workplaces = Some (CWorkplaces l) →
  h !! shiftCounts = Some (CObject o) →
  ∃ a, h !! a = None
       ∧ map_st h workplaces shiftCounts
         = Some (a, <[a := CRanked (joined l o)]> h).
Proof.
  intros Hw Hc. unfold map_st. rewrite Hw, Hc.
  destruct (alloc_spec h (CRanked (toRanked o <$> l))) as [Hfresh Hh].
  destruct (alloc h (CRanked (toRanked o <$> l))) as [a h1].
  cbn in Hfresh, Hh. subst h1. eauto.
Qed.

Lemma sort_st_spec (h : heap) a l :
  h !! a = Some (CRanked l) →
  sort_st h a = Some (a, <[a := CRanked (array_sort byShiftsDesc l)]> h).
Proof. intros Ha. unfold sort_st. by rewrite Ha. Qed.

Lemma slice_st_spec (h : heap) a l :
  h !! a = Some (CRanked l) →
  ∃ r, h !! r = None
       ∧ slice_st h a = Some (r, <[r := CRanked (slice0 3 l)]> h).
Proof.
  intros Ha. unfold slice_st. rewrite Ha.
  destruct (alloc_spec h (CRanked (slice0 3 l))) as [Hfresh Hh].
  destruct (alloc h (CRanked (slice0 3 l))) as [r h1].
  cbn in Hfresh, Hh. subst h1. eauto.
Qed.

Lemma getTopThreeWorkplaces_st_spec (h : heap) workplaces shiftCounts l o :
  h !! workplaces = Some (CWorkplaces l) →
  h !! shiftCounts = Some (CObject o) →
  ∃ a r,
    h !! a = None ∧ h !! r = None ∧ a ≠ r
    ∧ sort_st (<[a := CRanked (joined l o)]> h) a
      = Some (a, <[a := CRanked (array_sort byShiftsDesc (joined l o))]> h)
    ∧ getTopThreeWorkplaces_st h workplaces shiftCounts
      = Some (r, <[r := CRanked (getTopThreeWorkplaces l o)]>
                   (<[a := CRanked (array_sort byShiftsDesc (joined l o))]> h)).
Proof.
  intros Hw Hc. unfold getTopThreeWorkplaces_st.
  destruct (map_st_spec h _ _ _ _ Hw Hc) as (a & Ha & ->). cbn.
  rewrite (sort_st_spec _ a (joined l o)) by apply lookup_insert_eq. cbn.
  rewrite insert_insert_eq.
  destruct (slice_st_spec
              (<[a := CRanked (array_sort byShiftsDesc (joined l o))]> h)
              a (array_sort byShiftsDesc (joined l o)))
    as (r & Hr & ->); [apply lookup_insert_eq|].
  exists a, r. apply lookup_insert_None in Hr as [Hr Har].
  split_and!; try done.
  rewrite (sort_st_spec _ a (joined l o)) by apply lookup_insert_eq.
  by rewrite insert_insert_eq.
Qed.

(** C8. Running [countShifts] and then [getTopThreeWorkplaces] on a store
    leaves every cell that existed before the call as it was, the workplace
    array and the shift array among them, order included; the array that
    [sort] rearranges is one that [map] has just allocated. The result is
    a new array holding what the pure functions compute. *)
Theorem C8_inputs_not_mutated (h : heap) workplaces shifts ws ss :
  h !! workplaces = Some (CWorkplaces ws) →
  h !! shifts = Some (CShifts ss) →
  ∃ r h',
    aggregate_st h workplaces shifts = Some (r, h')
    ∧ h' !! workplaces = Some (CWorkplaces ws)
    ∧ h' !! shifts = Some (CShifts ss)
    ∧ (∀ x c, h !! x = Some c → h' !! x = Some c)
    ∧ h !! r = None
    ∧ h' !! r = Some (CRanked (getTopThreeWorkplaces ws (countShifts ss)))
    ∧ ∃ shiftCounts h1 a h2,
        countShifts_st h shifts = Some (shiftCounts, h1)
        ∧ map_st h1 workplaces shiftCounts = Some (a, h2)
        ∧ h !! a = None ∧ a ≠ workplaces ∧ a ≠ shifts
        ∧ h2 !! a = Some (CRanked (joined ws (countShifts ss)))
        ∧ sort_st h2 a
          = Some (a, <[a := CRanked (array_sort byShiftsDesc
                                       (joined ws (countShifts ss)))]> h2).
Proof.
  intros Hw Hs.
  destruct (countShifts_st_spec h shifts ss Hs) as (acc & Hacc & Hcount).
  set (h1 := <[acc := CObject (countShifts ss)]> h) in *.
  assert (h1 !! workplaces = Some (CWorkplaces ws)) as Hw1.
  { unfold h1. rewrite lookup_insert_ne; [done|]. intros ->. congruence. }
  assert (h1 !! acc = Some (CObject (countShifts ss))) as Hacc1
    by apply lookup_insert_eq.
  destruct (getTopThreeWorkplaces_st_spec h1 _ _ _ _ Hw1 Hacc1)
    as (a & r & Ha & Hr & Har & Hsort & Htop).
  apply lookup_insert_None in Ha as [Ha Haacc].
  apply lookup_insert_None in Hr as [Hr Hracc].
  set (sorted := array_sort byShiftsDesc (joined ws (countShifts ss))) in *.
  assert (∀ x c, h !! x = Some c →
            (<[r := CRanked (getTopThreeWorkplaces ws (countShifts ss))]>
               (<[a := CRanked sorted]> h1)) !! x = Some c) as Hframe.
  { intros x c Hx. unfold h1.
    rewrite !lookup_insert_ne; [done|intros ->; congruence..]. }
  eexists r, _. split_and!.
  - unfold aggregate_st. rewrite Hcount. cbn. exact Htop.
  - by apply Hframe.
  - by apply Hframe.
  - exact Hframe.
  - done.
  - apply lookup_insert_eq.
  - destruct (map_st_spec h1 _ _ _ _ Hw1 Hacc1) as (a' & Ha' & Hmap).
    exists acc, h1, a', (<[a' := CRanked (joined ws (countShifts ss))]> h1).
    apply lookup_insert_None in Ha' as [Ha' _].
    split_and!; try done.
    + intros ->. congruence.
    + intros ->. congruence.
    + apply lookup_insert_eq.
    + apply sort_st_spec, lookup_insert_eq.
Qed.

Lemma C8_inputs_not_mutated_witness :
  ∃ r h',
    aggregate_st
      (<[1%positive := CWorkplaces [Workplace.mk "B" "Beta";
                                    Workplace.mk "A" "Alpha"]]>
         (<[2%positive := CShifts [Shift.mk "A" "w1"]]> ∅))
      1%positive 2%positive = Some (r, h')
    ∧ h' !! 1%positive
      = Some (CWorkplaces [Workplace.mk "B" "Beta"; Workplace.mk "A" "Alpha"])
    ∧ h' !! 2%positive = Some (CShifts [Shift.mk "A" "w1"]).
Proof.
  destruct (C8_inputs_not_mutated
              (<[1%positive := CWorkplaces [Workplace.mk "B" "Beta";
                                            Workplace.mk "A" "Alpha"]]>
                 (<[2%positive := CShifts [Shift.mk "A" "w1"]]> ∅))
              1%positive 2%positive
              [Workplace.mk "B" "Beta"; Workplace.mk "A" "Alpha"]
              [Shift.mk "A" "w1"])
    as (r & h' & Hrun & Hw & Hs & _).
  - reflexivity.
  - reflexivity.
  - exists r, h'. auto.
Defined.

Example aggregate_st_run :
  ∃ h', aggregate_st
          (<[1%positive := CWorkplaces [Workplace.mk "B" "Beta";
                                        Workplace.mk "A" "Alpha"]]>
             (<[2%positive := CShifts [Shift.mk "A" "w1"]]> ∅))
          1%positive 2%positive = Some (5%positive, h')
        ∧ h' !! 5%positive
          = Some (CRanked [TopWorkPlaces.mk "Alpha" (VNum 1);
                           TopWorkPlaces.mk "Beta" (VNum 0)])
        ∧ h' !! 4%positive
          = Some (CRanked [TopWorkPlaces.mk "Alpha" (VNum 1);
                           TopWorkPlaces.mk "Beta" (VNum 0)])
        ∧ h' !! 1%positive
          = Some (CWorkplaces [Workplace.mk "B" "Beta";
                               Workplace.mk "A" "Alpha"]).
Proof. eexists. split; [vm_compute; reflexivity|]. by vm_compute. Qed.

(** * Further properties of the methods *)

(** ** The own properties of the count map *)

Lemma lookup_countStep acc s k :
  countStep acc s !! k =
    if decide (Shift.workplaceId s = k ∧ k ≠ "__proto__")
    then Some (bump (get_prop acc k)) else acc !! k.
Proof.
  unfold countStep, set_prop.
  destruct (decide (Shift.workplaceId s = "__proto__")) as [Hp|Hp].
  - rewrite decide_False; [done|]. intros [<- ?]. done.
  - destruct (decide (Shift.workplaceId s = k)) as [<-|Hne].
    + rewrite lookup_insert_eq, decide_True by done. done.
    + rewrite lookup_insert_ne, decide_False by tauto. done.
Qed.

Lemma lookup_fold_countStep shifts acc k :
  k ≠ "__proto__" →
  fold_left countStep shifts acc !! k =
    match length (referencing k shifts) with
    | 0 => acc !! k
    | S n => Some (Nat.iter (S n) bump (get_prop acc k))
    end.
Proof.
  intros Hk. revert acc.
  induction shifts as [|s shifts IH]; intros acc; [done|].
  cbn [fold_left]. rewrite IH. unfold referencing. rewrite filter_cons.
  rewrite lookup_countStep, get_countStep, (decide_False (P := k = _)) by done.
  destruct (decide (Shift.workplaceId s = k)) as [Heq|Hne].
  - rewrite decide_True by done. cbn [length].
    destruct (length (filter _ shifts)) as [|n]; [done|].
    by rewrite <-Nat.iter_succ_r.
  - rewrite decide_False by tauto. done.
Qed.

Lemma lookup_countShifts shifts k :
  countShifts shifts !! k =
    if decide (k = "__proto__") then None
    else match length (referencing k shifts) with
         | 0 => None
         | S n => Some (tally k (S n))
         end.
Proof.
  unfold countShifts. destruct (decide (k = "__proto__")) as [->|Hk].
  - generalize (∅ : gmap string jsval) (lookup_empty (M := gmap string)
      (A := jsval) "__proto__").
    induction shifts as [|s shifts IH]; intros acc Hacc; [done|].
    cbn [fold_left]. apply IH.
    rewrite lookup_countStep, decide_False by tauto. done.
  - rewrite lookup_fold_countStep, lookup_empty by done.
    destruct (length (referencing k shifts)) as [|n]; [done|].
    f_equal. unfold tally, get_prop.
    rewrite !decide_False, lookup_empty by done.
    destruct (inherited k).
    + apply iter_bump_builtin.
    + apply iter_bump_ordinary.
Qed.

Lemma inherited_false_not_proto k : inherited k = false → k ≠ "__proto__".
Proof. intros Hk ->. done. Qed.

Lemma referencing_nonempty k shifts :
  length (referencing k shifts) ≠ 0 ↔ k ∈ Shift.workplaceId <$> shifts.
Proof.
  unfold referencing. induction shifts as [|s shifts IH].
  { cbn. split; [done|]. intros H. by apply elem_of_nil in H. }
  rewrite filter_cons, fmap_cons, elem_of_cons.
  destruct (decide (Shift.workplaceId s = k)) as [Heq|Hne].
  - cbn. split; [auto|lia].
  - rewrite IH. split; [auto|]. intros [Heq|?]; [congruence|done].
Qed.

(** X1. Under a key that is not a name of [Object.prototype], the count
    map has no own property when no shift record references the key, and
    otherwise holds the number of records that do: it never stores 0. *)
Theorem X1_count_map_lookup shifts k :
  inherited k = false →
  countShifts shifts !! k =
    match length (referencing k shifts) with
    | 0 => None
    | S n => Some (VNum (Z.of_nat (S n)))
    end.
Proof.
  intros Hk. rewrite lookup_countShifts.
  rewrite decide_False by by apply inherited_false_not_proto.
  destruct (length (referencing k shifts)) as [|n]; [done|].
  unfold tally. rewrite decide_False by by apply inherited_false_not_proto.
  by rewrite Hk.
Qed.

Lemma X1_count_map_lookup_witness :
  countShifts [Shift.mk "A" "w1"; Shift.mk "B" "w1"; Shift.mk "A" "w2"] !! "A"
  = Some (VNum 2).
Proof.
  apply (X1_count_map_lookup
           [Shift.mk "A" "w1"; Shift.mk "B" "w1"; Shift.mk "A" "w2"] "A").
  reflexivity.
Defined.

(** X2. The own keys of the count map are the [workplaceId]s that occur
    in the shift collection, orphans included, except [__proto__], which
    never becomes an own property. *)
Theorem X2_count_map_keys shifts :
  dom (countShifts shifts)
  = list_to_set (Shift.workplaceId <$> shifts) ∖ {["__proto__"]}.
Proof.
  apply set_eq. intros k.
  rewrite elem_of_dom, elem_of_difference, elem_of_list_to_set,
    not_elem_of_singleton, <-referencing_nonempty, lookup_countShifts.
  destruct (decide (k = "__proto__")) as [Hk|Hk].
  - split; [by intros [? ?]|tauto].
  - destruct (length (referencing k shifts)) as [|n].
    + split; [by intros [? ?]|tauto].
    + split; [auto|by eauto].
Qed.

(** X3. The order of the shift records does not matter: a rearranged
    shift collection gives the same count map and the same result. *)
Theorem X3_shift_order_irrelevant ws ss1 ss2 :
  ss1 ≡ₚ ss2 →
  countShifts ss1 = countShifts ss2
  ∧ getTopThreeWorkplaces ws (countShifts ss1)
    = getTopThreeWorkplaces ws (countShifts ss2).
Proof.
  intros Hperm.
  assert (countShifts ss1 = countShifts ss2) as ->; [|done].
  apply map_eq. intros k. rewrite !lookup_countShifts.
  assert (length (referencing k ss1) = length (referencing k ss2)) as ->;
    [|done].
  unfold referencing. by rewrite Hperm.
Qed.

Lemma X3_shift_order_irrelevant_witness :
  countShifts [Shift.mk "A" "w1"; Shift.mk "B" "w2"]
  = countShifts [Shift.mk "B" "w2"; Shift.mk "A" "w1"].
Proof.
  apply (X3_shift_order_irrelevant []
           [Shift.mk "A" "w1"; Shift.mk "B" "w2"]
           [Shift.mk "B" "w2"; Shift.mk "A" "w1"]).
  apply Permutation_swap.
Defined.

(** ** What the join reports *)

(** X4. The [shifts] field reported for a workplace is a number exactly
    when the identifier of the workplace is not a name of
    [Object.prototype]. *)
Theorem X4_shifts_numeric_iff ss w :
  is_Some (ToNumber (TopWorkPlaces.shifts (toRanked (countShifts ss) w)))
  ↔ inherited (Workplace.id w) = false.
Proof.
  rewrite shifts_toRanked.
  destruct (inherited (Workplace.id w)) eqn:Hw.
  - rewrite tally_inherited by done. split; [by intros [? ?]|done].
  - rewrite tally_ordinary by done. split; [done|]. cbn. eauto.
Qed.

Lemma referencing_snoc k ss s :
  length (referencing k (ss ++ [s]))
  = length (referencing k ss) + (if decide (Shift.workplaceId s = k) then 1 else 0).
Proof.
  unfold referencing. rewrite filter_app, length_app, filter_cons, filter_nil.
  by case_decide.
Qed.

(** X5. One more shift record raises the count reported for the workplace
    it references by exactly one and leaves the count of every other
    workplace as it was (identifiers off [Object.prototype]). *)
Theorem X5_one_more_shift ss s w n :
  inherited (Workplace.id w) = false →
  TopWorkPlaces.shifts (toRanked (countShifts ss) w) = VNum n →
  TopWorkPlaces.shifts (toRanked (countShifts (ss ++ [s])) w)
  = VNum (if decide (Shift.workplaceId s = Workplace.id w)
          then n + 1 else n).
Proof.
  intros Hw. rewrite !shifts_toRanked, !tally_ordinary by done.
  rewrite referencing_snoc. intros [= <-]. f_equal. case_decide; lia.
Qed.

Lemma X5_one_more_shift_witness :
  TopWorkPlaces.shifts
    (toRanked (countShifts ([Shift.mk "A" "w1"] ++ [Shift.mk "A" "w2"]))
              (Workplace.mk "A" "Alpha"))
  = VNum 2.
Proof.
  apply (X5_one_more_shift [Shift.mk "A" "w1"] (Shift.mk "A" "w2")
           (Workplace.mk "A" "Alpha") 1).
  - reflexivity.
  - vm_compute. reflexivity.
Defined.

(** ** What the ranking keeps and what it drops *)

(** X6. The ranking drops only entries that no returned entry is below:
    the joined sequence splits into the returned entries and the dropped
    ones, and every returned entry has at least the count of every dropped
    one (identifiers off [Object.prototype]). *)
Theorem X6_top_three_dominate ws ss :
  Forall (λ w, inherited (Workplace.id w) = false) ws →
  ∃ dropped,
    getTopThreeWorkplaces ws (countShifts ss) ++ dropped
      ≡ₚ joined ws (countShifts ss)
    ∧ length dropped = length ws - 3
    ∧ ∀ a b, a ∈ getTopThreeWorkplaces ws (countShifts ss) →
             b ∈ dropped → shifts_ge a b.
Proof.
  intros Hws.
  exists (drop 3 (array_sort byShiftsDesc (joined ws (countShifts ss)))).
  unfold getTopThreeWorkplaces, slice0. split_and!.
  - by rewrite take_drop, array_sort_perm.
  - by rewrite length_drop, length_array_sort, length_joined.
  - intros a b Ha Hb.
    pose proof (array_sort_joined_sorted ws ss Hws) as Hsorted.
    rewrite <-(take_drop 3) in Hsorted.
    by apply (StronglySorted_app_1_elem_of _ _ _ a b Hsorted).
Qed.

Lemma X6_top_three_dominate_witness :
  ∃ dropped,
    getTopThreeWorkplaces
      [Workplace.mk "A" "Alpha"; Workplace.mk "B" "Beta";
       Workplace.mk "C" "Gamma"; Workplace.mk "D" "Delta"]
      (countShifts [Shift.mk "D" "w1"; Shift.mk "B" "w1"; Shift.mk "D" "w2"])
    ++ dropped
    ≡ₚ joined
      [Workplace.mk "A" "Alpha"; Workplace.mk "B" "Beta";
       Workplace.mk "C" "Gamma"; Workplace.mk "D" "Delta"]
      (countShifts [Shift.mk "D" "w1"; Shift.mk "B" "w1"; Shift.mk "D" "w2"])
    ∧ length dropped = 1.
Proof.
  destruct (X6_top_three_dominate
              [Workplace.mk "A" "Alpha"; Workplace.mk "B" "Beta";
               Workplace.mk "C" "Gamma"; Workplace.mk "D" "Delta"]
              [Shift.mk "D" "w1"; Shift.mk "B" "w1"; Shift.mk "D" "w2"])
    as (dropped & Hperm & Hlen & _).
  - repeat constructor.
  - exists dropped. split; [exact Hperm|exact Hlen].
Defined.

(** X7. The first returned entry carries the largest count: no workplace
    of the collection has more shifts (identifiers off
    [Object.prototype]). *)
Theorem X7_first_is_maximum ws ss a w :
  Forall (λ w, inherited (Workplace.id w) = false) ws →
  getTopThreeWorkplaces ws (countShifts ss) !! 0 = Some a →
  w ∈ ws →
  shifts_ge a (toRanked (countShifts ss) w).
Proof.
  intros Hws Ha Hw.
  pose proof (array_sort_joined_sorted ws ss Hws) as Hsorted.
  unfold getTopThreeWorkplaces, slice0 in Ha.
  rewrite lookup_take_lt in Ha by lia.
  assert (toRanked (countShifts ss) w
            ∈ array_sort byShiftsDesc (joined ws (countShifts ss))) as Hin.
  { rewrite array_sort_perm. unfold joined. by apply list_elem_of_fmap_2. }
  apply list_elem_of_lookup in Hin as [i Hi].
  destruct i as [|i].
  - assert (a = toRanked (countShifts ss) w) as -> by congruence.
    unfold shifts_ge. rewrite shifts_toRanked, tally_ordinary.
    + lia.
    + rewrite Forall_forall in Hws. by apply Hws.
  - apply (StronglySorted_lookup _ _ 0 (S i) _ _ Hsorted); [lia|done..].
Qed.

Lemma X7_first_is_maximum_witness :
  shifts_ge (TopWorkPlaces.mk "Beta" (VNum 2))
    (toRanked (countShifts [Shift.mk "B" "w1"; Shift.mk "A" "w1";
                            Shift.mk "B" "w2"])
              (Workplace.mk "A" "Alpha")).
Proof.
  apply (X7_first_is_maximum
           [Workplace.mk "A" "Alpha"; Workplace.mk "B" "Beta"]
           [Shift.mk "B" "w1"; Shift.mk "A" "w1"; Shift.mk "B" "w2"]).
  - repeat constructor.
  - vm_compute. reflexivity.
  - left.
Defined.

(** X8. With at most three workplaces nothing is dropped: the result is a
    rearrangement of the whole joined sequence. *)
Theorem X8_small_collection_kept (ws : list Workplace.t) shiftCounts :
  (length ws ≤ 3)%nat →
  getTopThreeWorkplaces ws shiftCounts ≡ₚ joined ws shiftCounts.
Proof.
  intros Hlen. unfold getTopThreeWorkplaces, slice0.
  rewrite take_ge by (rewrite length_array_sort, length_joined; lia).
  apply array_sort_perm.
Qed.

Lemma X8_small_collection_kept_witness :
  getTopThreeWorkplaces [Workplace.mk "A" "Alpha"; Workplace.mk "B" "Beta"]
    (countShifts [Shift.mk "B" "w1"])
  ≡ₚ joined [Workplace.mk "A" "Alpha"; Workplace.mk "B" "Beta"]
       (countShifts [Shift.mk "B" "w1"]).
Proof.
  apply (X8_small_collection_kept
           [Workplace.mk "A" "Alpha"; Workplace.mk "B" "Beta"]
           (countShifts [Shift.mk "B" "w1"])).
  cbn. lia.
Defined.

(** ** Input that is already in order *)

Lemma shifts_ge_not_before a b :
  shifts_ge a b → sorts_before byShiftsDesc b a = false.
Proof.
  intros Hab. apply sorts_before_false. revert Hab.
  unfold shifts_ge, SortCompare, byShiftsDesc, js_sub.
  destruct (TopWorkPlaces.shifts a), (TopWorkPlaces.shifts b); try done.
  cbn. lia.
Qed.

(** X9. When the workplaces arrive with their counts already in
    descending order, the sort moves nothing and the result is the first
    three workplaces in the order of the collection. *)
Theorem X9_ordered_input_kept ws shiftCounts :
  StronglySorted shifts_ge (joined ws shiftCounts) →
  getTopThreeWorkplaces ws shiftCounts
  = toRanked shiftCounts <$> take 3 ws.
Proof.
  intros Hsorted. unfold getTopThreeWorkplaces, slice0.
  rewrite array_sort_no_descent.
  - unfold joined. by rewrite fmap_take.
  - eapply StronglySorted_weaken; [|exact Hsorted].
    apply shifts_ge_not_before.
Qed.

Lemma X9_ordered_input_kept_witness :
  getTopThreeWorkplaces [Workplace.mk "A" "Alpha"; Workplace.mk "B" "Beta"]
    (countShifts [Shift.mk "A" "w1"])
  = toRanked (countShifts [Shift.mk "A" "w1"])
      <$> take 3 [Workplace.mk "A" "Alpha"; Workplace.mk "B" "Beta"].
Proof.
  apply (X9_ordered_input_kept
           [Workplace.mk "A" "Alpha"; Workplace.mk "B" "Beta"]
           (countShifts [Shift.mk "A" "w1"])).
  vm_compute. repeat constructor; vm_compute; discriminate.
Defined.

Lemma StronglySorted_all_related {A} (R : relation A) (P : A → Prop) l :
  (∀ a b, P a → P b → R a b) → Forall P l → StronglySorted R l.
Proof.
  intros HR. induction 1 as [|x l Hx Hl IH]; constructor; [done|].
  eapply Forall_impl; [exact Hl|]. cbn. auto.
Qed.

(** X10. With an empty shift collection the comparator orders no pair
    strictly, whatever the identifiers are, and the result is the first
    three workplaces in the order of the collection. *)
Theorem X10_no_shifts ws :
  getTopThreeWorkplaces ws (countShifts [])
  = toRanked (countShifts []) <$> take 3 ws.
Proof.
  unfold getTopThreeWorkplaces, slice0.
  rewrite array_sort_no_descent.
  - unfold joined. by rewrite fmap_take.
  - apply (StronglySorted_all_related _
             (λ r, TopWorkPlaces.shifts r = VNum 0
                   ∨ ∃ k, TopWorkPlaces.shifts r = VBuiltin k)).
    + intros a b Ha Hb. apply sorts_before_false. revert Ha Hb.
      unfold SortCompare, byShiftsDesc, js_sub.
      intros [Ha|[ka Ha]] [Hb|[kb Hb]]; rewrite Ha, Hb; cbn; lia.
    + unfold joined. apply Forall_fmap, Forall_forall. intros w _.
      unfold compose. rewrite shifts_toRanked.
      change (referencing (Workplace.id w) []) with (@nil Shift.t).
      cbn [length]. unfold tally.
      destruct (decide (Workplace.id w = "__proto__")); [by eauto|].
      destruct (inherited (Workplace.id w)); [by eauto|by left].
Qed.

(** ** The public operation and the entry point *)

(** X11. Whenever a retrieval does not hand over an array of records
    (the request is rejected, the response has no body or no envelope
    field, the data field is not an array, or the array holds [null]),
    [getTopWorkplaces] returns the empty sequence and writes one error to
    the console. *)
Theorem X11_no_collection_logged rw rs :
  delivers_array rw = None ∨ delivers_array rs = None →
  ∃ e, getTopWorkplaces rw rs = (Fulfilled [], [e]).
Proof.
  intros Hnone.
  destruct rw as [e1|[|[| |lw|]]], rs as [e2|[|[| |ls|]]]; cbn; eauto.
  destruct Hnone as [Hnone|Hnone]; discriminate.
Qed.

Lemma X11_no_collection_logged_witness :
  ∃ e, getTopWorkplaces
         (HttpResponse (Body (Array [Workplace.mk "A" "Alpha"])))
         (HttpResponse (Body (@ArrayWithNull Shift.t)))
       = (Fulfilled [], [e]).
Proof.
  apply (X11_no_collection_logged
           (HttpResponse (Body (Array [Workplace.mk "A" "Alpha"])))
           (HttpResponse (Body (@ArrayWithNull Shift.t)))).
  right. reflexivity.
Defined.

(** X12. [run] never ends in a rejected promise. The last thing it writes
    is one [console.log] line with at most three entries, preceded by at
    most one error line. *)
Theorem X12_run_always_prints rw rs :
  ∃ (errors : list error) top,
    run rw rs
    = (Fulfilled (), ((ConsoleError <$> errors) ++ [ConsoleLog top])%list)
    ∧ (length errors ≤ 1)%nat ∧ (length top ≤ 3)%nat
    ∧ (errors ≠ [] → top = []).
Proof.
  unfold run.
  destruct (delivers_array rw) as [ws|] eqn:Hw,
           (delivers_array rs) as [ss|] eqn:Hs.
  - destruct rw as [?|[|[| |lw|]]]; try discriminate.
    destruct rs as [?|[|[| |ls|]]]; try discriminate.
    rewrite getTopWorkplaces_success.
    exists [], (getTopThreeWorkplaces lw (countShifts ls)).
    split_and!; [done|cbn; lia| |done].
    rewrite length_getTopThreeWorkplaces. lia.
  - destruct rw as [e1|[|[| |lw|]]], rs as [e2|[|[| |ls|]]];
      try discriminate; cbn;
      eexists [_], []; (split_and!; [reflexivity|cbn; lia..|done]).
  - destruct rw as [e1|[|[| |lw|]]], rs as [e2|[|[| |ls|]]];
      try discriminate; cbn;
      eexists [_], []; (split_and!; [reflexivity|cbn; lia..|done]).
  - destruct rw as [e1|[|[| |lw|]]], rs as [e2|[|[| |ls|]]];
      try discriminate; cbn;
      eexists [_], []; (split_and!; [reflexivity|cbn; lia..|done]).
Qed.

(** ** The store: the count map is only read *)

(** X13. [getTopThreeWorkplaces] changes no cell of the store it is given:
    neither the workplace array nor the count map, which it reads with a
    default and never extends. Its result is a new array. *)
Theorem X13_join_reads_only (h : heap) workplaces shiftCounts ws o :
  h !! workplaces = Some (CWorkplaces ws) →
  h !! shiftCounts = Some (CObject o) →
  ∃ r h',
    getTopThreeWorkplaces_st h workplaces shiftCounts = Some (r, h')
    ∧ h !! r = None
    ∧ h' !! r = Some (CRanked (getTopThreeWorkplaces ws o))
    ∧ h' !! shiftCounts = Some (CObject o)
    ∧ ∀ x c, h !! x = Some c → h' !! x = Some c.
Proof.
  intros Hw Hc.
  destruct (getTopThreeWorkplaces_st_spec h _ _ _ _ Hw Hc)
    as (a & r & Ha & Hr & Har & _ & Htop).
  assert (∀ x c, h !! x = Some c →
            (<[r := CRanked (getTopThreeWorkplaces ws o)]>
               (<[a := CRanked (array_sort byShiftsDesc (joined ws o))]> h))
              !! x = Some c) as Hframe.
  { intros x c Hx. rewrite !lookup_insert_ne; [done|intros ->; congruence..]. }
  eexists r, _. split_and!; [exact Htop|done| |by apply Hframe|exact Hframe].
  apply lookup_insert_eq.
Qed.

Lemma X13_join_reads_only_witness :
  ∃ r h',
    getTopThreeWorkplaces_st
      (<[1%positive := CWorkplaces [Workplace.mk "A" "Alpha"]]>
         (<[2%positive := CObject (countShifts [Shift.mk "A" "w1"])]> ∅))
      1%positive 2%positive = Some (r, h')
    ∧ h' !! 2%positive = Some (CObject (countShifts [Shift.mk "A" "w1"])).
Proof.
  destruct (X13_join_reads_only
              (<[1%positive := CWorkplaces [Workplace.mk "A" "Alpha"]]>
                 (<[2%positive := CObject (countShifts [Shift.mk "A" "w1"])]> ∅))
              1%positive 2%positive
              [Workplace.mk "A" "Alpha"] (countShifts [Shift.mk "A" "w1"]))
    as (r & h' & Hrun & _ & _ & Hc & _).
  - reflexivity.
  - reflexivity.
  - exists r, h'. auto.
Defined.
